(** * Shallow embedding of the ANTLR Go runtime's [ATN] container (atn.go)

    The ATN owns a slice of states and a slice of decision states; every
    state object carries mutable fields (state number, decision index, owning
    ATN, memoised next-token-within-rule set).  Go pointers to state objects
    are modelled as locations [Loc]; a nil interface is [None].

    The operations run in a state-and-panic monad: a Go [panic] (an explicit
    one, a nil dereference, an index out of range or a failed type assertion)
    is a [Panic] result, and the store as it was at the panic point is kept. *)

From Stdlib Require Import List ZArith Lia Bool Sorted.
Import ListNotations.
Open Scope Z_scope.
Set Warnings "-register-all".

(** ** Tokens and interval sets *)

(** [TokenEOF] and [TokenEpsilon] from token.go. *)
Definition TokenEOF : Z := -1.
Definition TokenEpsilon : Z := -2.

(** IntervalSet is an external collaborator of this file; the spec treats it
    as an opaque set of token types with union, membership, single removal and
    a read-only flag.  It is modelled by its list of elements. *)
Record IntervalSet := mkIntervalSet {
  intervals : list Z;
  readOnly : bool
}.

Definition NewIntervalSet : IntervalSet := mkIntervalSet [] false.

Definition Contains (i : IntervalSet) (v : Z) : bool :=
  existsb (Z.eqb v) (intervals i).

Definition AddOne (i : IntervalSet) (v : Z) : IntervalSet :=
  if Contains i v then i else mkIntervalSet (intervals i ++ [v]) (readOnly i).

Definition addSet (i other : IntervalSet) : IntervalSet :=
  fold_left AddOne (intervals other) i.

Definition removeOne (i : IntervalSet) (v : Z) : IntervalSet :=
  mkIntervalSet (filter (fun x => negb (Z.eqb x v)) (intervals i)) (readOnly i).

(** ** Rule contexts

    A [RuleContext] link records its invoking state and its parent
    ([GetParent]), which is nil at the outermost link. *)
Inductive RuleContext : Type :=
| RC (invokingState : Z) (parentCtx : option RuleContext).

Definition GetInvokingState (c : RuleContext) : Z :=
  match c with RC k _ => k end.

Definition GetParent (c : RuleContext) : option RuleContext :=
  match c with RC _ p => p end.

(** [ParserRuleContextEmpty = NewBaseParserRuleContext(nil, -1)]: the
    empty/root context marker, a non-nil object. *)
Definition ParserRuleContextEmpty : RuleContext := RC (-1) None.

(** ** States, transitions and the store *)

Definition Loc := nat.

(** Only the rule transition's [followState] matters here; any other kind of
    transition fails the [rt.( *RuleTransition)] assertion. *)
Inductive Transition : Type :=
| RuleTransition (target : Loc) (followState : Loc)
| OtherTransition (target : Loc).

Record ATN := mkATN {
  DecisionToState : list (option Loc);
  grammarType : Z;
  maxTokenType : Z;
  states : list (option Loc)
}.

(** [NewATN(grammarType, maxTokenType)]: no states, no decisions. *)
Definition NewATN (gt mtt : Z) : ATN := mkATN [] gt mtt [].

(** Mutable fields of the state objects. *)
Record Heap := mkHeap {
  stateNumber : Loc -> Z;
  decision : Loc -> Z;
  stateATN : Loc -> bool;
  nextTokenWithinRule : Loc -> option IntervalSet
}.

(** The store: the ATN, the state objects, the package-level variable
    [ATNInvalidAltNumber] and, as ghost instrumentation, the log of calls
    made to the lookahead analyzer. *)
Record Store := mkStore {
  atn : ATN;
  heap : Heap;
  ATNInvalidAltNumber : Z;
  lookCalls : list (Loc * option RuleContext)
}.

Definition upd {A} (f : Loc -> A) (l : Loc) (v : A) : Loc -> A :=
  fun l' => if Nat.eqb l' l then v else f l'.

Definition set_states (a : ATN) (ss : list (option Loc)) : ATN :=
  mkATN (DecisionToState a) (grammarType a) (maxTokenType a) ss.
Definition set_decisions (a : ATN) (ds : list (option Loc)) : ATN :=
  mkATN ds (grammarType a) (maxTokenType a) (states a).

Definition set_atn (σ : Store) (a : ATN) : Store :=
  mkStore a (heap σ) (ATNInvalidAltNumber σ) (lookCalls σ).
Definition set_heap (σ : Store) (h : Heap) : Store :=
  mkStore (atn σ) h (ATNInvalidAltNumber σ) (lookCalls σ).
Definition log_look (σ : Store) (c : Loc * option RuleContext) : Store :=
  mkStore (atn σ) (heap σ) (ATNInvalidAltNumber σ) (lookCalls σ ++ [c]).

Definition SetStateNumber (h : Heap) (l : Loc) (n : Z) : Heap :=
  mkHeap (upd (stateNumber h) l n) (decision h) (stateATN h) (nextTokenWithinRule h).
Definition setDecision (h : Heap) (l : Loc) (d : Z) : Heap :=
  mkHeap (stateNumber h) (upd (decision h) l d) (stateATN h) (nextTokenWithinRule h).
Definition SetATN (h : Heap) (l : Loc) : Heap :=
  mkHeap (stateNumber h) (decision h) (upd (stateATN h) l true) (nextTokenWithinRule h).
Definition SetNextTokenWithinRule (h : Heap) (l : Loc) (i : IntervalSet) : Heap :=
  mkHeap (stateNumber h) (decision h) (stateATN h) (upd (nextTokenWithinRule h) l (Some i)).

(** Go's [s[k] = v] on an index known to be in range. *)
Fixpoint list_set {A} (xs : list A) (k : nat) (v : A) : list A :=
  match xs, k with
  | [], _ => []
  | _ :: xs', O => v :: xs'
  | x :: xs', S k' => x :: list_set xs' k' v
  end.

(** ** The state-and-panic monad *)

Inductive panicKind : Type :=
| InvalidStateNumber   (* panic("Invalid state number.") *)
| NilDereference       (* method call on a nil interface *)
| IndexOutOfRange      (* slice index out of range *)
| BadTypeAssertion.    (* x.(T) failing, also on a nil interface *)

Inductive result (A : Type) : Type :=
| Ok (a : A)
| Panic (p : panicKind).
Arguments Ok {A} a.
Arguments Panic {A} p.

Definition M (A : Type) : Type := Store -> result A * Store.

Definition ret {A} (a : A) : M A := fun σ => (Ok a, σ).
Definition throw {A} (p : panicKind) : M A := fun σ => (Panic p, σ).
Definition bind {A B} (m : M A) (f : A -> M B) : M B :=
  fun σ => match m σ with
           | (Ok a, σ') => f a σ'
           | (Panic p, σ') => (Panic p, σ')
           end.
Definition get : M Store := fun σ => (Ok σ, σ).
Definition put (σ' : Store) : M unit := fun _ => (Ok tt, σ').

Notation "x <- m ;; k" := (bind m (fun x => k))
  (at level 61, m at next level, right associativity).
Notation "m ;;; k" := (bind m (fun _ => k))
  (at level 61, right associativity).

(** [xs[i]] with Go's bounds check. *)
Definition index {A} (xs : list A) (i : Z) : M A :=
  if (i <? 0) || (Z.of_nat (length xs) <=? i) then throw IndexOutOfRange
  else match nth_error xs (Z.to_nat i) with
       | Some x => ret x
       | None => throw IndexOutOfRange
       end.

(** ** The operations of atn.go *)

(** Modelled from the spec: the Lookahead Analyzer ([LL1Analyzer.Look], not
    among the sources) is the closure search over the fixed graph: it maps a
    start state and an optional context to the token types reachable from it,
    and touches nothing else. *)
Definition LookAnalyzer : Type := Loc -> option RuleContext -> list Z.

Section Operations.

Variable Look : LookAnalyzer.
(** The outgoing transitions of every state of the (fixed) graph. *)
Variable GetTransitions : Loc -> list Transition.

(** [NextTokensInContext(s, ctx) = NewLL1Analyzer(a).Look(s, nil, ctx)]; the
    analyzer builds a fresh, writable set. *)
Definition NextTokensInContext (s : option Loc) (ctx : option RuleContext)
  : M IntervalSet :=
  match s with
  | None => throw NilDereference
  | Some l => fun σ => (Ok (mkIntervalSet (Look l ctx) false), log_look σ (l, ctx))
  end.

(** [NextTokensNoContext(s)]: memoised in the state's
    [nextTokenWithinRule] field (under [a.mu], which a sequential model
    needs not represent). *)
Definition NextTokensNoContext (s : option Loc) : M IntervalSet :=
  match s with
  | None => throw NilDereference
  | Some l =>
      σ <- get ;;
      match nextTokenWithinRule (heap σ) l with
      | Some iset => ret iset
      | None =>
          iset <- NextTokensInContext (Some l) None ;;
          let iset' := mkIntervalSet (intervals iset) true in
          σ' <- get ;;
          put (set_heap σ' (SetNextTokenWithinRule (heap σ') l iset')) ;;;
          ret iset'
      end
  end.

(** [NextTokens(s, ctx)]: dispatch on [ctx == nil]. *)
Definition NextTokens (s : option Loc) (ctx : option RuleContext) : M IntervalSet :=
  match ctx with
  | None => NextTokensNoContext s
  | Some _ => NextTokensInContext s ctx
  end.

Definition addState (state : option Loc) : M unit :=
  σ <- get ;;
  let n := Z.of_nat (length (states (atn σ))) in
  let h := match state with
           | Some l => SetStateNumber (SetATN (heap σ) l) l n
           | None => heap σ
           end in
  put (set_heap (set_atn σ (set_states (atn σ) (states (atn σ) ++ [state]))) h).

Definition removeState (state : option Loc) : M unit :=
  match state with
  | None => throw NilDereference
  | Some l =>
      σ <- get ;;
      let k := stateNumber (heap σ) l in
      _ <- index (states (atn σ)) k ;;
      put (set_atn σ (set_states (atn σ) (list_set (states (atn σ)) (Z.to_nat k) None)))
  end.

Definition defineDecisionState (s : option Loc) : M Z :=
  σ <- get ;;
  let ds := DecisionToState (atn σ) ++ [s] in
  put (set_atn σ (set_decisions (atn σ) ds)) ;;;
  match s with
  | None => throw NilDereference
  | Some l =>
      σ' <- get ;;
      put (set_heap σ' (setDecision (heap σ') l (Z.of_nat (length ds) - 1))) ;;;
      σ'' <- get ;;
      ret (decision (heap σ'') l)
  end.

Definition getDecisionState (d : Z) : M (option Loc) :=
  σ <- get ;;
  match DecisionToState (atn σ) with
  | [] => ret None
  | ds => index ds d
  end.

(** The loop of [getExpectedTokens], one iteration per context link: the
    condition [ctx != nil && ctx.GetInvokingState() >= 0 &&
    following.Contains(TokenEpsilon)], then the body, ending with
    [ctx = ctx.GetParent().(RuleContext)], which fails on a nil parent.
    Returns the final [following] and [expected]. *)
Fixpoint expectedLoop (c : RuleContext) (following expected : IntervalSet)
  : M (IntervalSet * IntervalSet) :=
  match c with
  | RC inv par =>
      if (0 <=? inv) && Contains following TokenEpsilon then
        σ <- get ;;
        invokingState <- index (states (atn σ)) inv ;;
        match invokingState with
        | None => throw NilDereference
        | Some li =>
            rt <- index (GetTransitions li) 0 ;;
            match rt with
            | OtherTransition _ => throw BadTypeAssertion
            | RuleTransition _ fs =>
                following' <- NextTokens (Some fs) None ;;
                let expected' := removeOne (addSet expected following') TokenEpsilon in
                match par with
                | None => throw BadTypeAssertion
                | Some p => expectedLoop p following' expected'
                end
            end
        end
      else ret (following, expected)
  end.

Definition getExpectedTokens (stateNumber : Z) (ctx : option RuleContext)
  : M IntervalSet :=
  σ <- get ;;
  if (stateNumber <? 0) || (Z.of_nat (length (states (atn σ))) <=? stateNumber)
  then throw InvalidStateNumber
  else
    s <- index (states (atn σ)) stateNumber ;;
    following <- NextTokens s None ;;
    if negb (Contains following TokenEpsilon) then ret following
    else
      let expected := removeOne (addSet NewIntervalSet following) TokenEpsilon in
      fe <- match ctx with
            | None => ret (following, expected)
            | Some c => expectedLoop c following expected
            end ;;
      let '(following, expected) := fe in
      ret (if Contains following TokenEpsilon
           then AddOne expected TokenEOF else expected).

(** The reference algorithm of the spec (section 4.2, steps 2-6), written
    from its words: "while the current context link is non-root and has a
    non-negative invoking state and the most recently computed [following]
    contains epsilon: take the invoking state's first outgoing transition's
    follow state, recompute [following = nextTokens(followState, nil)], union
    [following] minus epsilon into the accumulator, advance to the parent
    link".  In the spec every link holds "a reference to its parent link or
    an explicit empty/root marker" (section 3), and a malformed context chain
    is a fatal violation (sections 5 and 7): advancing from a link that has
    neither fails, as does an invoking state without a follow state
    ([NilDereference] stands for any fatal failure). *)
Definition followStateOf (σ : Store) (inv : Z) : option Loc :=
  match nth_error (states (atn σ)) (Z.to_nat inv) with
  | Some (Some li) =>
      match GetTransitions li with
      | RuleTransition _ fs :: _ => Some fs
      | _ => None
      end
  | _ => None
  end.

Fixpoint specWalk (c : RuleContext) (following acc : IntervalSet)
  : M (IntervalSet * IntervalSet) :=
  match c with
  | RC inv par =>
      if (0 <=? inv) && Contains following TokenEpsilon then
        σ <- get ;;
        match followStateOf σ inv with
        | None => throw NilDereference
        | Some fs =>
            following' <- NextTokens (Some fs) None ;;
            let acc' := removeOne (addSet acc following') TokenEpsilon in
            match par with
            | None => throw NilDereference
            | Some p => specWalk p following' acc'
            end
        end
      else ret (following, acc)
  end.

Definition specExpectedTokens (stateNumber : Z) (ctx : option RuleContext)
  : M IntervalSet :=
  σ <- get ;;
  if (stateNumber <? 0) || (Z.of_nat (length (states (atn σ))) <=? stateNumber)
  then throw InvalidStateNumber
  else
    following <- NextTokens (nth (Z.to_nat stateNumber) (states (atn σ)) None) None ;;
    if negb (Contains following TokenEpsilon) then ret following
    else
      let acc := removeOne (addSet NewIntervalSet following) TokenEpsilon in
      fa <- match ctx with
            | None => ret (following, acc)
            | Some c => specWalk c following acc
            end ;;
      let '(following, acc) := fa in
      ret (if Contains following TokenEpsilon then AddOne acc TokenEOF else acc).

(** Read-only queries of the reachability engine (the graph is fixed). *)
Inductive Query : Type :=
| QNextTokens (s : option Loc) (ctx : option RuleContext)
| QNextTokensNoContext (s : option Loc)
| QNextTokensInContext (s : option Loc) (ctx : option RuleContext)
| QGetExpectedTokens (n : Z) (ctx : option RuleContext)
| QGetDecisionState (d : Z).

(** Every operation of atn.go.  [OpNewATN] replaces the ATN by a fresh one. *)
Inductive Op : Type :=
| OpQuery (q : Query)
| OpNewATN (gt mtt : Z)
| OpAddState (s : option Loc)
| OpRemoveState (s : option Loc)
| OpDefineDecisionState (s : option Loc).

Definition runQuery (q : Query) : M unit :=
  match q with
  | QNextTokens s c => NextTokens s c ;;; ret tt
  | QNextTokensNoContext s => NextTokensNoContext s ;;; ret tt
  | QNextTokensInContext s c => NextTokensInContext s c ;;; ret tt
  | QGetExpectedTokens n c => getExpectedTokens n c ;;; ret tt
  | QGetDecisionState d => getDecisionState d ;;; ret tt
  end.

Definition runOp (o : Op) : M unit :=
  match o with
  | OpQuery q => runQuery q
  | OpNewATN gt mtt => σ <- get ;; put (set_atn σ (NewATN gt mtt))
  | OpAddState s => addState s
  | OpRemoveState s => removeState s
  | OpDefineDecisionState s => defineDecisionState s ;;; ret tt
  end.

(** A sequence of calls; a panicking call is recovered by the caller and the
    next call runs on the store the panic left. *)
Fixpoint runOps (os : list Op) (σ : Store) : Store :=
  match os with
  | [] => σ
  | o :: os' => runOps os' (snd (runOp o σ))
  end.

Fixpoint runQueries (qs : list Query) (σ : Store) : Store :=
  match qs with
  | [] => σ
  | q :: qs' => runQueries qs' (snd (runQuery q σ))
  end.

End Operations.

(** ** A concrete graph for tests

    Rule [A] starts at state 0; state 1 calls rule [B] (start state 3, empty
    body) and returns to state 2, where [A] expects token 7.  State 0 is also
    the start of a rule body [T?] with [T = 3]. *)
Module TestGraph.

Definition T : Z := 3.

Definition look : LookAnalyzer := fun l ctx =>
  let local := match l with
               | 0%nat => [T; TokenEpsilon]
               | 2%nat => [7]
               | 3%nat => [TokenEpsilon]
               | _ => []
               end in
  match ctx with
  | None => local
  | Some _ => map (fun t => if t =? TokenEpsilon then TokenEOF else t) local
  end.

Definition trans : Loc -> list Transition := fun l =>
  match l with
  | 1%nat => [RuleTransition 3%nat 2%nat]
  | 0%nat => [OtherTransition 1%nat]
  | _ => []
  end.

Definition heap0 : Heap :=
  mkHeap (fun l => Z.of_nat l) (fun _ => -1) (fun _ => true) (fun _ => None).

Definition store0 : Store :=
  mkStore (mkATN [] 1 10 [Some 0%nat; Some 1%nat; Some 2%nat; Some 3%nat]) heap0 0 [].

(** A link that records invoking state 1 and has no parent object: a chain
    malformed in the spec's sense.  The runtime's context constructor never
    builds it (a nil parent forces invoking state -1); only a manual
    [SetInvokingState] on a parentless context does. *)
Definition ctxNoParent : RuleContext := RC 1 None.

(** The same call, inside the empty/root context marker. *)
Definition ctxRooted : RuleContext := RC 1 (Some ParserRuleContextEmpty).

End TestGraph.

(** Observation of [addState]: the state numbers it assigns, in order. *)
Definition numbersAssigned (Look : LookAnalyzer) (GT : Loc -> list Transition)
  : list Op -> Store -> list Z :=
  fix go os σ :=
    match os with
    | [] => []
    | o :: os' =>
        let σ' := snd (runOp Look GT o σ) in
        match o with
        | OpAddState (Some l) => stateNumber (heap σ') l :: go os' σ'
        | _ => go os' σ'
        end
    end.

Definition sameATN (o : Op) : bool :=
  match o with OpNewATN _ _ => false | _ => true end.

(** Defining the decision states [ls], in order. *)
Fixpoint defineAll (ls : list Loc) : M (list Z) :=
  match ls with
  | [] => ret []
  | l :: ls' => i <- defineDecisionState (Some l) ;; is <- defineAll ls' ;; ret (i :: is)
  end.

(** A context chain well formed in the spec's sense, walked as the loop of
    section 4.2 walks it: every link up to the first one with a negative
    invoking state (the root marker) names an existing state whose first
    transition carries a follow state ("by construction, a rule-invocation's
    return point always has exactly one relevant transition carrying a follow
    state"), and has a parent link behind it.  [Some fss] lists the follow
    states of those links, outermost last; [None] marks a malformed chain. *)
Fixpoint followChain (GT : Loc -> list Transition) (ss : list (option Loc))
    (c : RuleContext) : option (list Loc) :=
  match c with
  | RC inv par =>
      if inv <? 0 then Some []
      else match nth_error ss (Z.to_nat inv) with
           | Some (Some li) =>
               match GT li, par with
               | RuleTransition _ fs :: _, Some p =>
                   match followChain GT ss p with
                   | Some fss => Some (fs :: fss)
                   | None => None
                   end
               | _, _ => None
               end
           | _ => None
           end
  end.

(** Agreement of two runs: same value and store, or both panicking. *)
Definition agree {A} (r1 r2 : result A * Store) : Prop :=
  match r1, r2 with
  | (Ok a, σ1), (Ok b, σ2) => a = b /\ σ1 = σ2
  | (Panic _, _), (Panic _, _) => True
  | _, _ => False
  end.

(** How a run may change the memo caches: an entry is kept, or an absent
    entry is filled with the analyzer's context-free result, read-only. *)
Definition cacheStep (Look : LookAnalyzer) (σ σ' : Store) : Prop :=
  forall l, nextTokenWithinRule (heap σ') l = nextTokenWithinRule (heap σ) l \/
            (nextTokenWithinRule (heap σ) l = None /\
             nextTokenWithinRule (heap σ') l = Some (mkIntervalSet (Look l None) true)).

Definition frame (Look : LookAnalyzer) (σ σ' : Store) : Prop :=
  cacheStep Look σ σ' /\ ATNInvalidAltNumber σ' = ATNInvalidAltNumber σ.

Definition preserves (Look : LookAnalyzer) {A} (m : M A) : Prop :=
  forall σ, frame Look σ (snd (m σ)).

(** Only the explicit range check raises [InvalidStateNumber]. *)
Definition noISN {A} (m : M A) : Prop :=
  forall σ, fst (m σ) <> Panic InvalidStateNumber.

(** A run keeps the relation [R] between the store before and after it. *)
Definition stable (R : Store -> Store -> Prop) {A} (m : M A) : Prop :=
  forall σ, R σ (snd (m σ)).

(** Runs that leave the ATN itself unchanged. *)
Definition sameGraph (σ σ' : Store) : Prop := atn σ' = atn σ.

(** [GetMaxTokenType()]. *)
Definition GetMaxTokenType (a : ATN) : Z := maxTokenType a.

(** Every memoised next-token set is the analyzer's context-free result for
    its state, marked read-only. *)
Definition cacheSound (Look : LookAnalyzer) (σ : Store) : Prop :=
  forall l c, nextTokenWithinRule (heap σ) l = Some c -> c = mkIntervalSet (Look l None) true.

(** A context that [getExpectedTokens] treats as root-only: nil, or a link
    whose invoking state is negative (such as [ParserRuleContextEmpty]). *)
Definition rootOnly (ctx : option RuleContext) : bool :=
  match ctx with None => true | Some c => GetInvokingState c <? 0 end.

(** A run only appends analyzer calls made with a nil context. *)
Definition logNilCtx (σ σ' : Store) : Prop :=
  exists calls, lookCalls σ' = lookCalls σ ++ calls /\ Forall (fun c => snd c = None) calls.

(** A run that keeps the ATN's grammar type and maximum token type. *)
Definition sameHeader (σ σ' : Store) : Prop :=
  maxTokenType (atn σ') = maxTokenType (atn σ) /\ grammarType (atn σ') = grammarType (atn σ).

(** ** Proofs *)

Lemma frame_refl Look σ : frame Look σ σ.
Proof. split; [intro l; left; reflexivity | reflexivity]. Qed.

Lemma frame_trans Look σ1 σ2 σ3 :
  frame Look σ1 σ2 -> frame Look σ2 σ3 -> frame Look σ1 σ3.
Proof.
  intros [C12 A12] [C23 A23]; split; [| congruence].
  intro l; destruct (C12 l) as [E12 | [N12 S12]]; destruct (C23 l) as [E23 | [N23 S23]].
  - left; congruence.
  - right; split; congruence.
  - right; split; congruence.
  - congruence.
Qed.

Lemma preserves_ret Look {A} (a : A) : preserves Look (ret a).
Proof. intro; apply frame_refl. Qed.

Lemma preserves_throw Look {A} p : preserves Look (@throw A p).
Proof. intro; apply frame_refl. Qed.

Lemma preserves_get Look : preserves Look get.
Proof. intro; apply frame_refl. Qed.

Lemma preserves_bind Look {A B} (m : M A) (f : A -> M B) :
  preserves Look m -> (forall a, preserves Look (f a)) -> preserves Look (bind m f).
Proof.
  intros Hm Hf σ; unfold bind.
  specialize (Hm σ); destruct (m σ) as [[a|p] σ'] eqn:E; simpl in *.
  - eapply frame_trans; [exact Hm | apply Hf].
  - exact Hm.
Qed.

Lemma preserves_index Look {A} (xs : list A) i : preserves Look (index xs i).
Proof.
  unfold index; destruct (_ || _); [apply preserves_throw|].
  destruct (nth_error _ _); [apply preserves_ret | apply preserves_throw].
Qed.

Lemma preserves_InContext Look s c : preserves Look (NextTokensInContext Look s c).
Proof.
  destruct s as [l|]; [|apply preserves_throw].
  intro σ; split; [intro; left|]; reflexivity.
Qed.

Lemma preserves_NoContext Look s : preserves Look (NextTokensNoContext Look s).
Proof.
  destruct s as [l|]; [|apply preserves_throw].
  intro σ; unfold NextTokensNoContext, bind, get, put, ret; simpl.
  destruct (nextTokenWithinRule (heap σ) l) as [c|] eqn:E; simpl; [apply frame_refl|].
  split; [|reflexivity].
  intro l'; unfold upd; simpl; destruct (Nat.eqb l' l) eqn:El.
  - apply Nat.eqb_eq in El; subst; right; split; [exact E | unfold upd; rewrite Nat.eqb_refl; reflexivity].
  - left; unfold upd; rewrite El; reflexivity.
Qed.

Lemma preserves_NextTokens Look s c : preserves Look (NextTokens Look s c).
Proof.
  destruct c; [apply preserves_InContext | apply preserves_NoContext].
Qed.


Lemma preserves_expectedLoop Look GT :
  forall c f e, preserves Look (expectedLoop Look GT c f e).
Proof.
  fix IH 1; intros [inv par] f e; cbn [expectedLoop].
  destruct (_ && _); [|apply preserves_ret].
  apply preserves_bind; [apply preserves_get|]; intro σ.
  apply preserves_bind; [apply preserves_index|]; intros [li|]; [|apply preserves_throw].
  apply preserves_bind; [apply preserves_index|]; intros [t fs|t]; [|apply preserves_throw].
  apply preserves_bind; [apply preserves_NextTokens|]; intro f'.
  destruct par as [p|]; [apply IH | apply preserves_throw].
Qed.

Lemma preserves_getExpectedTokens Look GT n c :
  preserves Look (getExpectedTokens Look GT n c).
Proof.
  unfold getExpectedTokens.
  apply preserves_bind; [apply preserves_get|]; intro σ.
  destruct (_ || _); [apply preserves_throw|].
  apply preserves_bind; [apply preserves_index|]; intro s.
  apply preserves_bind; [apply preserves_NextTokens|]; intro f.
  destruct (negb _); [apply preserves_ret|].
  apply preserves_bind.
  - destruct c; [apply preserves_expectedLoop | apply preserves_ret].
  - intros [f' e']; apply preserves_ret.
Qed.

(** Stores that differ from [σ] in the ATN and in heap fields other than the
    memo cache are in the frame of [σ]. *)
Lemma frame_same_cache Look σ σ' :
  nextTokenWithinRule (heap σ') = nextTokenWithinRule (heap σ) ->
  ATNInvalidAltNumber σ' = ATNInvalidAltNumber σ -> frame Look σ σ'.
Proof. intros Hc Ha; split; [intro l; left; rewrite Hc; reflexivity | exact Ha]. Qed.

Lemma preserves_addState Look s : preserves Look (addState s).
Proof.
  intro σ; apply frame_same_cache; [|reflexivity].
  destruct s; reflexivity.
Qed.

Lemma preserves_removeState Look s : preserves Look (removeState s).
Proof.
  destruct s as [l|]; [|apply preserves_throw].
  intro σ; unfold removeState, bind, get, put.
  destruct (index _ _ σ) as [[x|p] σ'] eqn:E; unfold index in E;
    destruct (_ || _); try destruct (nth_error _ _);
    unfold ret, throw in E; inversion E; subst; simpl; apply frame_refl || apply frame_same_cache; reflexivity.
Qed.

Lemma preserves_defineDecisionState Look s : preserves Look (defineDecisionState s).
Proof.
  intro σ; apply frame_same_cache; destruct s; reflexivity.
Qed.

Lemma preserves_getDecisionState Look d : preserves Look (getDecisionState d).
Proof.
  apply preserves_bind; [apply preserves_get|]; intro σ.
  destruct (DecisionToState (atn σ)); [apply preserves_ret | apply preserves_index].
Qed.

Lemma preserves_runQuery Look GT q : preserves Look (runQuery Look GT q).
Proof.
  destruct q; simpl; apply preserves_bind; intros; try apply preserves_ret.
  - apply preserves_NextTokens.
  - apply preserves_NoContext.
  - apply preserves_InContext.
  - apply preserves_getExpectedTokens.
  - apply preserves_getDecisionState.
Qed.

Lemma preserves_runOp Look GT o : preserves Look (runOp Look GT o).
Proof.
  destruct o; simpl.
  - apply preserves_runQuery.
  - intro σ; apply frame_same_cache; reflexivity.
  - apply preserves_addState.
  - apply preserves_removeState.
  - apply preserves_bind; [apply preserves_defineDecisionState | intros; apply preserves_ret].
Qed.

Lemma frame_runOps Look GT os : forall σ, frame Look σ (runOps Look GT os σ).
Proof.
  induction os as [|o os IH]; intro σ; simpl; [apply frame_refl|].
  eapply frame_trans; [apply preserves_runOp | apply IH].
Qed.

Lemma frame_runQueries Look GT qs : forall σ, frame Look σ (runQueries Look GT qs σ).
Proof.
  induction qs as [|q qs IH]; intro σ; simpl; [apply frame_refl|].
  eapply frame_trans; [apply preserves_runQuery | apply IH].
Qed.

Lemma NoContext_cached Look l σ c :
  nextTokenWithinRule (heap σ) l = Some c ->
  NextTokensNoContext Look (Some l) σ = (Ok c, σ).
Proof.
  intro H; unfold NextTokensNoContext, bind, get; rewrite H; reflexivity.
Qed.

Lemma NoContext_fresh Look l σ :
  nextTokenWithinRule (heap σ) l = None ->
  NextTokensNoContext Look (Some l) σ =
    (Ok (mkIntervalSet (Look l None) true),
     set_heap (log_look σ (l, None))
       (SetNextTokenWithinRule (heap σ) l (mkIntervalSet (Look l None) true))).
Proof.
  intro H; unfold NextTokensNoContext, bind, get; rewrite H; reflexivity.
Qed.

(** ** Claims on the reachability engine *)

(** C4: [NextTokensNoContext] is memoised per state.  On a state whose cache
    is absent, the call runs the analyzer once (with a nil context), marks
    the set read-only, stores it on the state and returns it; after any
    further operations, every later call on that state returns that stored
    set, changes nothing in the store and does not run the analyzer. *)
Theorem NextTokensNoContext_memoised (Look : LookAnalyzer) (GT : Loc -> list Transition)
    (l : Loc) (σ : Store)
    (Hfirst : nextTokenWithinRule (heap σ) l = None) :
  let iset := mkIntervalSet (Look l None) true in
  let σ1 := snd (NextTokensNoContext Look (Some l) σ) in
  fst (NextTokensNoContext Look (Some l) σ) = Ok iset /\
  readOnly iset = true /\
  nextTokenWithinRule (heap σ1) l = Some iset /\
  lookCalls σ1 = lookCalls σ ++ [(l, None)] /\
  forall os : list Op,
    let σ2 := runOps Look GT os σ1 in
    NextTokensNoContext Look (Some l) σ2 = (Ok iset, σ2).
Proof.
  intros iset σ1; unfold σ1; rewrite (NoContext_fresh Look l σ Hfirst); simpl.
  assert (Hc : nextTokenWithinRule
                 (SetNextTokenWithinRule (heap σ) l (mkIntervalSet (Look l None) true)) l
               = Some iset)
    by (unfold SetNextTokenWithinRule, upd; cbn [nextTokenWithinRule];
        rewrite Nat.eqb_refl; reflexivity).
  split; [reflexivity|]; split; [reflexivity|]; split; [exact Hc|];
    split; [reflexivity|].
  intros os; apply NoContext_cached.
  destruct (frame_runOps Look GT os
              (set_heap (log_look σ (l, None))
                 (SetNextTokenWithinRule (heap σ) l (mkIntervalSet (Look l None) true))))
    as [C _].
  destruct (C l) as [E | [N _]]; simpl in *; [rewrite E; exact Hc | congruence].
Qed.

(** C6: for a fixed graph and a fixed (state, context) pair, [NextTokens]
    gives the same result (same set, or the same panic) before and after any
    sequence of other queries. *)
Theorem NextTokens_deterministic (Look : LookAnalyzer) (GT : Loc -> list Transition)
    (s : option Loc) (ctx : option RuleContext) (σ : Store) (qs : list Query) :
  fst (NextTokens Look s ctx σ) = fst (NextTokens Look s ctx (runQueries Look GT qs σ)).
Proof.
  destruct ctx as [c|]; simpl; [destruct s; reflexivity|].
  destruct s as [l|]; [|reflexivity].
  destruct (frame_runQueries Look GT qs σ) as [C _].
  destruct (C l) as [E | [N S]].
  - destruct (nextTokenWithinRule (heap σ) l) as [c|] eqn:Hc.
    + rewrite (NoContext_cached Look l σ c Hc).
      rewrite (NoContext_cached Look l _ c); [reflexivity | exact E].
    + rewrite (NoContext_fresh Look l σ Hc).
      rewrite (NoContext_fresh Look l _); [reflexivity | exact E].
  - rewrite (NoContext_fresh Look l σ N), (NoContext_cached Look l _ _ S); reflexivity.
Qed.

(** C10: with a non-nil context, [NextTokensInContext] and [NextTokens]
    leave every state's fields (the memo caches among them) as they were,
    and their result does not depend on the store at all, caches included. *)
Theorem context_queries_bypass_cache (Look : LookAnalyzer) (s : option Loc)
    (c : RuleContext) (σ1 σ2 : Store) :
  heap (snd (NextTokensInContext Look s (Some c) σ1)) = heap σ1 /\
  heap (snd (NextTokens Look s (Some c) σ1)) = heap σ1 /\
  fst (NextTokensInContext Look s (Some c) σ1) = fst (NextTokensInContext Look s (Some c) σ2) /\
  fst (NextTokens Look s (Some c) σ1) = fst (NextTokens Look s (Some c) σ2).
Proof. destruct s; repeat split. Qed.

(** C9: no operation assigns [ATNInvalidAltNumber]: any sequence of graph
    constructions, mutations and queries leaves it unchanged, so from its
    initial (zero) value it stays zero. *)
Theorem ATNInvalidAltNumber_constant (Look : LookAnalyzer) (GT : Loc -> list Transition)
    (os : list Op) :
  (forall σ, ATNInvalidAltNumber (runOps Look GT os σ) = ATNInvalidAltNumber σ) /\
  (forall a h log, ATNInvalidAltNumber (runOps Look GT os (mkStore a h 0 log)) = 0).
Proof.
  split.
  - intro σ; apply (frame_runOps Look GT os σ).
  - intros a h log; apply (frame_runOps Look GT os (mkStore a h 0 log)).
Qed.


Lemma noISN_bind {A B} (m : M A) (f : A -> M B) :
  noISN m -> (forall a, noISN (f a)) -> noISN (bind m f).
Proof.
  intros Hm Hf σ; unfold bind; specialize (Hm σ).
  destruct (m σ) as [[a|p] σ']; simpl in *; [apply Hf |].
  intro E; apply Hm; inversion E; reflexivity.
Qed.

Lemma noISN_guarded {A} (c : Store -> bool) (k : Store -> M A) (σ : Store) :
  c σ = false -> (forall σ0, noISN (k σ0)) ->
  fst (bind get (fun σ0 => if c σ0 then throw InvalidStateNumber else k σ0) σ)
    <> Panic InvalidStateNumber.
Proof. intros Hc Hk; unfold bind, get; rewrite Hc; apply Hk. Qed.

Lemma noISN_ret {A} (a : A) : noISN (ret a).
Proof. intros σ; discriminate. Qed.

Lemma noISN_throw {A} p : p <> InvalidStateNumber -> noISN (@throw A p).
Proof. intros Hp σ H; inversion H; auto. Qed.

Lemma noISN_get : noISN get.
Proof. intros σ; discriminate. Qed.

Lemma noISN_index {A} (xs : list A) i : noISN (index xs i).
Proof.
  unfold index; destruct (_ || _); [apply noISN_throw; discriminate|].
  destruct (nth_error _ _); [apply noISN_ret | apply noISN_throw; discriminate].
Qed.

Lemma noISN_NextTokens Look s c : noISN (NextTokens Look s c).
Proof.
  destruct s as [l|]; destruct c as [c|]; simpl;
    try (apply noISN_throw; discriminate); [discriminate|].
  intro σ; unfold NextTokensNoContext, bind, get.
  destruct (nextTokenWithinRule _ _); discriminate.
Qed.

Lemma noISN_expectedLoop Look GT : forall c f e, noISN (expectedLoop Look GT c f e).
Proof.
  fix IH 1; intros [inv par] f e; cbn [expectedLoop].
  destruct (_ && _); [|apply noISN_ret].
  apply noISN_bind; [apply noISN_get|]; intro σ.
  apply noISN_bind; [apply noISN_index|]; intros [li|]; [|apply noISN_throw; discriminate].
  apply noISN_bind; [apply noISN_index|]; intros [t fs|t]; [|apply noISN_throw; discriminate].
  apply noISN_bind; [apply noISN_NextTokens|]; intro f'.
  destruct par as [p|]; [apply IH | apply noISN_throw; discriminate].
Qed.

(** ** Claims on getExpectedTokens and the graph *)

(** C3: [getExpectedTokens(stateNumber, ctx)] panics with "Invalid state
    number." exactly when [stateNumber] is negative or at least the number
    of states; for such a number it returns no set at all (and changes
    nothing). *)
Theorem getExpectedTokens_invalid_state (Look : LookAnalyzer)
    (GT : Loc -> list Transition) (n : Z) (ctx : option RuleContext) (σ : Store) :
  (fst (getExpectedTokens Look GT n ctx σ) = Panic InvalidStateNumber <->
   (n < 0 \/ Z.of_nat (length (states (atn σ))) <= n)) /\
  ((n < 0 \/ Z.of_nat (length (states (atn σ))) <= n) ->
   getExpectedTokens Look GT n ctx σ = (Panic InvalidStateNumber, σ) /\
   forall E, fst (getExpectedTokens Look GT n ctx σ) <> Ok E).
Proof.
  assert (Hout : (n < 0 \/ Z.of_nat (length (states (atn σ))) <= n) ->
                 getExpectedTokens Look GT n ctx σ = (Panic InvalidStateNumber, σ)).
  { intro H; unfold getExpectedTokens, bind, get.
    replace ((n <? 0) || (Z.of_nat (length (states (atn σ))) <=? n)) with true
      by (symmetry; apply orb_true_iff; destruct H; [left; apply Z.ltb_lt | right; apply Z.leb_le]; lia).
    reflexivity. }
  split; [split|].
  - intro H.
    destruct (Z.ltb_spec n 0) as [|Hn]; [left; assumption|].
    destruct (Z.leb_spec (Z.of_nat (length (states (atn σ)))) n) as [|Hl]; [right; assumption|].
    exfalso; revert H; unfold getExpectedTokens.
    apply (noISN_guarded (fun σ0 => (n <? 0) || (Z.of_nat (length (states (atn σ0))) <=? n))).
    + apply orb_false_iff; split; [apply Z.ltb_ge | apply Z.leb_gt]; lia.
    + intro σ0.
      apply noISN_bind; [apply noISN_index|]; intro s.
      apply noISN_bind; [apply noISN_NextTokens|]; intro f.
      destruct (negb _); [apply noISN_ret|].
      apply noISN_bind.
      * destruct ctx; [apply noISN_expectedLoop | apply noISN_ret].
      * intros [f' e']; apply noISN_ret.
  - intro H; rewrite (Hout H); reflexivity.
  - intro H; rewrite (Hout H); split; [reflexivity | intros E; discriminate].
Qed.

(** C5 (as the code has it): [NextTokens] calls [NextTokensNoContext] only
    for a nil context; every non-nil context, the empty/root marker
    [ParserRuleContextEmpty] included, goes to [NextTokensInContext], which
    leaves the per-state caches alone. *)
Theorem NextTokens_dispatch (Look : LookAnalyzer) (s : option Loc)
    (ctx : option RuleContext) (σ : Store) :
  NextTokens Look s ctx σ =
    match ctx with
    | None => NextTokensNoContext Look s σ
    | Some _ => NextTokensInContext Look s ctx σ
    end /\
  NextTokens Look s (Some ParserRuleContextEmpty) σ =
    NextTokensInContext Look s (Some ParserRuleContextEmpty) σ /\
  heap (snd (NextTokens Look s (Some ParserRuleContextEmpty) σ)) = heap σ.
Proof. destruct ctx, s; repeat split. Qed.

(** C5, counterexample: with the root marker as context, [NextTokens] at
    state 0 of the test graph is not [NextTokensNoContext]: it returns a
    different set (writable, while the memoised one is read-only) and leaves
    the state's cache empty, where [NextTokensNoContext] fills it. *)
Lemma NextTokens_root_marker_bypasses_NoContext :
  fst (NextTokens TestGraph.look (Some 0%nat) (Some ParserRuleContextEmpty) TestGraph.store0)
    <> fst (NextTokensNoContext TestGraph.look (Some 0%nat) TestGraph.store0) /\
  nextTokenWithinRule
    (heap (snd (NextTokens TestGraph.look (Some 0%nat) (Some ParserRuleContextEmpty)
                  TestGraph.store0))) 0%nat = None /\
  nextTokenWithinRule
    (heap (snd (NextTokensNoContext TestGraph.look (Some 0%nat) TestGraph.store0))) 0%nat
    = Some (mkIntervalSet [TestGraph.T; TokenEpsilon] true).
Proof. vm_compute; split; [discriminate | split; reflexivity]. Qed.

Lemma defineDecisionState_step (l : Loc) (σ : Store) :
  let n := Z.of_nat (length (DecisionToState (atn σ))) in
  fst (defineDecisionState (Some l) σ) = Ok n /\
  DecisionToState (atn (snd (defineDecisionState (Some l) σ))) =
    DecisionToState (atn σ) ++ [Some l] /\
  decision (heap (snd (defineDecisionState (Some l) σ))) l = n.
Proof.
  intro n; unfold defineDecisionState, bind, get, put, ret; simpl.
  unfold upd; rewrite Nat.eqb_refl, length_app; simpl.
  unfold n; split; [f_equal; lia | split; [reflexivity | lia]].
Qed.

Lemma defineAll_spec (ls : list Loc) : forall σ,
  fst (defineAll ls σ) =
    Ok (map Z.of_nat (seq (length (DecisionToState (atn σ))) (length ls))) /\
  DecisionToState (atn (snd (defineAll ls σ))) = DecisionToState (atn σ) ++ map Some ls.
Proof.
  induction ls as [|l ls IH]; intro σ; [rewrite app_nil_r; split; reflexivity|].
  destruct (defineDecisionState_step l σ) as (H1 & H2 & _).
  destruct (defineDecisionState (Some l) σ) as [r σ'] eqn:E; simpl in H1, H2; subst r.
  destruct (IH σ') as [IH1 IH2].
  destruct (defineAll ls σ') as [r σ''] eqn:E'; simpl in IH1, IH2; subst r.
  cbn [defineAll]; unfold bind; rewrite E; cbv beta iota; rewrite E'; simpl.
  rewrite IH2, H2, <- app_assoc, length_app; simpl.
  split; [| reflexivity].
  replace (length (DecisionToState (atn σ)) + 1)%nat with (S (length (DecisionToState (atn σ))))
    by lia; reflexivity.
Qed.

Lemma index_map_Some (ls : list Loc) (i : nat) :
  (i < length ls)%nat ->
  forall σ, index (map Some ls) (Z.of_nat i) σ = (Ok (Some (nth i ls 0%nat)), σ).
Proof.
  intros Hi σ; unfold index.
  replace ((Z.of_nat i <? 0) || (Z.of_nat (length (map Some ls)) <=? Z.of_nat i)) with false
    by (rewrite length_map; symmetry; apply orb_false_iff; split;
        [apply Z.ltb_ge | apply Z.leb_gt]; lia).
  rewrite Nat2Z.id, nth_error_map, (nth_error_nth' ls 0%nat Hi); reflexivity.
Qed.

(** C8: [defineDecisionState] appends the state, stamps it with the index
    it got (the former number of decision states) and returns that index;
    on a new ATN, [getDecisionState] gives nil for every index before any
    decision state is defined, and after defining [ls] in order it returns
    the [i]-th of them for every [i < length ls]. *)
Theorem decision_indices_round_trip (gt mtt : Z) (σ : Store) (ls : list Loc) :
  (forall l σ',
     let n := Z.of_nat (length (DecisionToState (atn σ'))) in
     fst (defineDecisionState (Some l) σ') = Ok n /\
     DecisionToState (atn (snd (defineDecisionState (Some l) σ'))) =
       DecisionToState (atn σ') ++ [Some l] /\
     decision (heap (snd (defineDecisionState (Some l) σ'))) l = n) /\
  (let σ0 := set_atn σ (NewATN gt mtt) in
   (forall d, getDecisionState d σ0 = (Ok None, σ0)) /\
   fst (defineAll ls σ0) = Ok (map Z.of_nat (seq 0 (length ls))) /\
   forall i, (i < length ls)%nat ->
     fst (getDecisionState (Z.of_nat i) (snd (defineAll ls σ0))) = Ok (Some (nth i ls 0%nat))).
Proof.
  split; [intros; apply defineDecisionState_step|].
  intro σ0; destruct (defineAll_spec ls σ0) as [H1 H2].
  split; [intro d; reflexivity|]; split; [exact H1|].
  intros i Hi; unfold getDecisionState, bind, get; cbv beta iota.
  rewrite H2; cbn [app DecisionToState atn σ0 set_atn NewATN].
  destruct ls as [|l0 ls']; [simpl in Hi; lia|].
  pose proof (index_map_Some (l0 :: ls') i Hi (snd (defineAll (l0 :: ls') σ0))) as HI.
  cbn [map] in HI |- *; rewrite HI; reflexivity.
Qed.

(** *** Runs that keep a relation between the store before and after *)
Section Stable.

Variable R : Store -> Store -> Prop.
Hypothesis R_refl : forall σ, R σ σ.
Hypothesis R_trans : forall σ1 σ2 σ3, R σ1 σ2 -> R σ2 σ3 -> R σ1 σ3.

Lemma stable_ret {A} (a : A) : stable R (ret a).
Proof. intro; apply R_refl. Qed.

Lemma stable_throw {A} p : stable R (@throw A p).
Proof. intro; apply R_refl. Qed.

Lemma stable_get : stable R get.
Proof. intro; apply R_refl. Qed.

Lemma stable_bind {A B} (m : M A) (f : A -> M B) :
  stable R m -> (forall a, stable R (f a)) -> stable R (bind m f).
Proof.
  intros Hm Hf σ; unfold bind; specialize (Hm σ).
  destruct (m σ) as [[a|p] σ']; simpl in *; [eapply R_trans; [exact Hm | apply Hf] | exact Hm].
Qed.

Lemma stable_index {A} (xs : list A) i : stable R (index xs i).
Proof.
  unfold index; destruct (_ || _); [apply stable_throw|].
  destruct (nth_error _ _); [apply stable_ret | apply stable_throw].
Qed.

End Stable.


Lemma sameGraph_refl σ : sameGraph σ σ.
Proof. reflexivity. Qed.

Lemma sameGraph_trans σ1 σ2 σ3 : sameGraph σ1 σ2 -> sameGraph σ2 σ3 -> sameGraph σ1 σ3.
Proof. unfold sameGraph; congruence. Qed.

Ltac stable_step :=
  first [ apply (stable_bind _ sameGraph_trans)
        | apply (stable_ret _ sameGraph_refl)
        | apply (stable_throw _ sameGraph_refl)
        | apply (stable_get _ sameGraph_refl)
        | apply (stable_index _ sameGraph_refl) ].

Lemma graph_NextTokens Look s c : stable sameGraph (NextTokens Look s c).
Proof.
  intro σ; unfold sameGraph; destruct c as [c|]; destruct s as [l|]; try reflexivity.
  simpl; unfold NextTokensNoContext, bind, get.
  destruct (nextTokenWithinRule _ _); reflexivity.
Qed.

Lemma graph_expectedLoop Look GT : forall c f e, stable sameGraph (expectedLoop Look GT c f e).
Proof.
  fix IH 1; intros [inv par] f e; cbn [expectedLoop].
  destruct (_ && _); [|stable_step].
  stable_step; [stable_step|]; intro σ.
  stable_step; [stable_step|]; intros [li|]; [|stable_step].
  stable_step; [stable_step|]; intros [t fs|t]; [|stable_step].
  stable_step; [apply graph_NextTokens|]; intro f'.
  destruct par as [p|]; [apply IH | stable_step].
Qed.

Lemma graph_runQuery Look GT q : stable sameGraph (runQuery Look GT q).
Proof.
  destruct q; simpl;
    (apply (stable_bind _ sameGraph_trans); [| intros; apply (stable_ret _ sameGraph_refl)]).
  - apply graph_NextTokens.
  - apply (graph_NextTokens Look s None).
  - destruct s; [intro; reflexivity | stable_step].
  - unfold getExpectedTokens; stable_step; [stable_step|]; intro σ.
    destruct (_ || _); [stable_step|].
    stable_step; [stable_step|]; intro s.
    stable_step; [apply graph_NextTokens|]; intro f.
    destruct (negb _); [stable_step|].
    stable_step; [destruct ctx; [apply graph_expectedLoop | stable_step]|].
    intros [f' e']; stable_step.
  - unfold getDecisionState; stable_step; [stable_step|]; intro σ.
    destruct (DecisionToState (atn σ)); stable_step.
Qed.

Lemma list_set_length {A} (xs : list A) k v : length (list_set xs k v) = length xs.
Proof. revert k; induction xs as [|x xs IH]; intros [|k]; simpl; auto. Qed.

Lemma list_set_nth_error {A} (xs : list A) k v j :
  (k < length xs)%nat ->
  nth_error (list_set xs k v) j = if Nat.eqb j k then Some v else nth_error xs j.
Proof.
  revert k j; induction xs as [|x xs IH]; intros [|k] [|j] Hk; simpl in *;
    try lia; try reflexivity; apply IH; lia.
Qed.

(** Every operation on the same ATN keeps or grows the slice of states. *)
Lemma runOp_states_grow Look GT o σ :
  sameATN o = true ->
  (length (states (atn σ)) <= length (states (atn (snd (runOp Look GT o σ)))))%nat.
Proof.
  destruct o as [q| | s | s | s]; simpl; intro H; try discriminate.
  - rewrite (graph_runQuery Look GT q σ); lia.
  - rewrite length_app; simpl; lia.
  - destruct s as [l|]; simpl; [|lia].
    unfold bind, get, put.
    destruct (index _ _ σ) as [[x|p] σ'] eqn:E; unfold index in E;
      destruct (_ || _); try destruct (nth_error _ _);
      unfold ret, throw in E; inversion E; subst; simpl; try lia.
    rewrite list_set_length; lia.
  - unfold bind, get, put; destruct s; simpl; lia.
Qed.

Lemma addState_number (l : Loc) (σ : Store) :
  stateNumber (heap (snd (addState (Some l) σ))) l = Z.of_nat (length (states (atn σ))) /\
  length (states (atn (snd (addState (Some l) σ)))) = S (length (states (atn σ))).
Proof.
  unfold addState, bind, get, put; simpl; unfold upd; rewrite Nat.eqb_refl, length_app.
  simpl; split; [reflexivity | lia].
Qed.

Lemma numbersAssigned_above Look GT : forall os σ,
  forallb sameATN os = true ->
  Forall (fun n => Z.of_nat (length (states (atn σ))) <= n) (numbersAssigned Look GT os σ) /\
  StronglySorted Z.lt (numbersAssigned Look GT os σ).
Proof.
  induction os as [|o os IH]; intros σ Hs; simpl in *; [split; constructor|].
  apply andb_true_iff in Hs as [Ho Hos].
  pose proof (runOp_states_grow Look GT o σ Ho) as Hg.
  destruct (IH (snd (runOp Look GT o σ)) Hos) as [Hf Hss].
  assert (Hw : Forall (fun n => Z.of_nat (length (states (atn σ))) <= n)
                 (numbersAssigned Look GT os (snd (runOp Look GT o σ))))
    by (eapply Forall_impl; [|exact Hf]; intros a Ha; simpl in Ha; lia).
  destruct o as [q|gt mtt|[l|]|s|s]; try (split; assumption).
  change (runOp Look GT (OpAddState (Some l)) σ) with (addState (Some l) σ) in *.
  destruct (addState_number l σ) as [Hn Hlen].
  rewrite Hn; split.
  - constructor; [lia | exact Hw].
  - constructor; [exact Hss|].
    eapply Forall_impl; [|exact Hf]; intros a Ha; cbv beta in Ha; rewrite Hlen in Ha; lia.
Qed.

Lemma removeState_effect (l : Loc) (σ : Store) :
  let k := stateNumber (heap σ) l in
  0 <= k < Z.of_nat (length (states (atn σ))) ->
  removeState (Some l) σ =
    (Ok tt, set_atn σ (set_states (atn σ) (list_set (states (atn σ)) (Z.to_nat k) None))).
Proof.
  intros k Hk; unfold removeState, bind, get, put, index; fold k.
  replace ((k <? 0) || (Z.of_nat (length (states (atn σ))) <=? k)) with false
    by (symmetry; apply orb_false_iff; split; [apply Z.ltb_ge | apply Z.leb_gt]; lia).
  destruct (nth_error (states (atn σ)) (Z.to_nat k)) eqn:E; [reflexivity|].
  apply nth_error_None in E; lia.
Qed.

(** C7: [addState] appends the state and gives a non-nil state the number
    [len(states)] it had before (a nil state gets no number);
    [removeState] of the state numbered [k] clears slot [k] in place, keeps
    the length and every other slot, and renumbers no state; on the same
    ATN, the numbers any later [addState] calls assign are all above [k] and
    strictly increasing. *)
Theorem state_numbers_stable (Look : LookAnalyzer) (GT : Loc -> list Transition)
    (l : Loc) (σ : Store)
    (Hk : 0 <= stateNumber (heap σ) l < Z.of_nat (length (states (atn σ)))) :
  (forall (s : option Loc) (σ0 : Store),
     let σ1 := snd (addState s σ0) in
     fst (addState s σ0) = Ok tt /\
     states (atn σ1) = states (atn σ0) ++ [s] /\
     (forall l', s = Some l' -> stateNumber (heap σ1) l' = Z.of_nat (length (states (atn σ0)))) /\
     (forall l', s <> Some l' -> stateNumber (heap σ1) l' = stateNumber (heap σ0) l')) /\
  (let k := stateNumber (heap σ) l in
   let σ' := snd (removeState (Some l) σ) in
   fst (removeState (Some l) σ) = Ok tt /\
   length (states (atn σ')) = length (states (atn σ)) /\
   nth_error (states (atn σ')) (Z.to_nat k) = Some None /\
   (forall j, j <> Z.to_nat k -> nth_error (states (atn σ')) j = nth_error (states (atn σ)) j) /\
   stateNumber (heap σ') = stateNumber (heap σ) /\
   forall os, forallb sameATN os = true ->
     StronglySorted Z.lt (k :: numbersAssigned Look GT os σ')).
Proof.
  split.
  - intros s σ0 σ1; unfold σ1, addState, bind, get, put; simpl.
    split; [reflexivity|]; split; [reflexivity|].
    destruct s as [l0|]; simpl; split; intros l' Hl'; try discriminate.
    + injection Hl' as <-; unfold upd; rewrite Nat.eqb_refl; reflexivity.
    + unfold upd; destruct (Nat.eqb l' l0) eqn:E; [|reflexivity].
      apply Nat.eqb_eq in E; subst; congruence.
    + reflexivity.
  - intros k σ'; unfold σ'; rewrite (removeState_effect l σ Hk); simpl.
    assert (Hkn : (Z.to_nat k < length (states (atn σ)))%nat) by (unfold k; lia).
    split; [reflexivity|].
    split; [apply list_set_length|].
    split; [rewrite list_set_nth_error, Nat.eqb_refl by exact Hkn; reflexivity|].
    split; [intros j Hj; rewrite list_set_nth_error by exact Hkn;
            replace (Nat.eqb j (Z.to_nat (stateNumber (heap σ) l))) with false
              by (symmetry; apply Nat.eqb_neq; exact Hj); reflexivity|].
    split; [reflexivity|].
    intros os Hos.
    destruct (numbersAssigned_above Look GT os
                (set_atn σ (set_states (atn σ) (list_set (states (atn σ)) (Z.to_nat k) None))) Hos)
      as [Hf Hs].
    constructor; [exact Hs|].
    eapply Forall_impl; [|exact Hf]; intros a Ha; cbv beta in Ha.
    simpl in Ha; rewrite list_set_length in Ha; unfold k in *; lia.
Qed.

(** Witness for C7: removing state 2 of the test graph, then adding a state. *)
Lemma state_numbers_stable_witness :
  0 <= stateNumber (heap TestGraph.store0) 2%nat
    < Z.of_nat (length (states (atn TestGraph.store0))) /\
  StronglySorted Z.lt
    (2 :: numbersAssigned TestGraph.look TestGraph.trans [OpAddState (Some 9%nat)]
            (snd (removeState (Some 2%nat) TestGraph.store0))).
Proof.
  assert (H : 0 <= stateNumber (heap TestGraph.store0) 2%nat
                < Z.of_nat (length (states (atn TestGraph.store0)))) by (simpl; lia).
  split; [exact H|].
  apply (state_numbers_stable TestGraph.look TestGraph.trans 2%nat TestGraph.store0 H).
  reflexivity.
Defined.

(** Witness for C4: the first call on state 0 of the test graph. *)
Lemma NextTokensNoContext_memoised_witness :
  nextTokenWithinRule (heap TestGraph.store0) 0%nat = None /\
  fst (NextTokensNoContext TestGraph.look (Some 0%nat) TestGraph.store0)
    = Ok (mkIntervalSet (TestGraph.look 0%nat None) true).
Proof.
  assert (H : nextTokenWithinRule (heap TestGraph.store0) 0%nat = None) by reflexivity.
  split; [exact H|].
  apply (NextTokensNoContext_memoised TestGraph.look TestGraph.trans 0%nat TestGraph.store0 H).
Defined.

(** *** getExpectedTokens against the spec's algorithm *)

Lemma agree_refl {A} (r : result A * Store) : agree r r.
Proof. destruct r as [[a|p] σ]; simpl; auto. Qed.

Lemma agree_bind {A B} (m1 m2 : M A) (f : A -> M B) σ :
  agree (m1 σ) (m2 σ) -> agree (bind m1 f σ) (bind m2 f σ).
Proof.
  unfold bind; destruct (m1 σ) as [[a|p] σ1], (m2 σ) as [[b|q] σ2]; simpl; try tauto.
  intros [-> ->]; apply agree_refl.
Qed.

(** On every chain, the loop of [getExpectedTokens] agrees with the spec's
    walk. *)
Lemma expectedLoop_agrees Look GT :
  forall c f e σ, agree (expectedLoop Look GT c f e σ) (specWalk Look GT c f e σ).
Proof.
  fix IH 1; intros [inv par] f e σ; cbn [expectedLoop specWalk].
  destruct ((0 <=? inv) && Contains f TokenEpsilon) eqn:Hc; [|apply agree_refl].
  apply andb_true_iff in Hc as [Hinv _]; apply Z.leb_le in Hinv.
  unfold bind, get, ret, throw, index, followStateOf; cbv beta iota zeta.
  destruct ((inv <? 0) || (Z.of_nat (length (states (atn σ))) <=? inv)) eqn:Hb.
  - replace (nth_error (states (atn σ)) (Z.to_nat inv)) with (@None (option Loc));
      [exact I|].
    symmetry; apply nth_error_None.
    apply orb_true_iff in Hb as [Hb|Hb]; [apply Z.ltb_lt in Hb | apply Z.leb_le in Hb]; lia.
  - cbv beta iota zeta.
    destruct (nth_error (states (atn σ)) (Z.to_nat inv)) as [[li|]|];
      unfold ret, throw; cbv beta iota zeta; try exact I.
    destruct (GT li) as [|[t fs|t] rest]; cbn -[NextTokens expectedLoop specWalk];
      unfold ret, throw; cbv beta iota zeta; try exact I.
    destruct (NextTokens Look (Some fs) None σ) as [[f'|p] σ'] eqn:E; cbv beta iota zeta;
      [|exact I].
    destruct par as [p|]; [apply IH | exact I].
Qed.


Lemma bind_get {A} (k : Store -> M A) σ : bind get k σ = k σ σ.
Proof. reflexivity. Qed.

Lemma bind_ret {A B} (a : A) (f : A -> M B) σ : bind (ret a) f σ = f a σ.
Proof. reflexivity. Qed.

Lemma index_ok {A} (xs : list A) (i : Z) (x : A) σ :
  0 <= i -> nth_error xs (Z.to_nat i) = Some x -> index xs i σ = (Ok x, σ).
Proof.
  intros Hi Hx; unfold index.
  assert (Hl : (Z.to_nat i < length xs)%nat) by (apply nth_error_Some; congruence).
  replace ((i <? 0) || (Z.of_nat (length xs) <=? i)) with false
    by (symmetry; apply orb_false_iff; split; [apply Z.ltb_ge | apply Z.leb_gt]; lia).
  rewrite Hx; reflexivity.
Qed.

(** C1: [getExpectedTokens] follows the spec's reference algorithm on every
    input: for every state number, context and store, either both return
    the same set and leave the same store, or both fail fatally (an invalid
    state number, a malformed graph, or a malformed context chain, such as a
    link with a valid invoking state and no parent link). *)
Theorem getExpectedTokens_follows_reference (Look : LookAnalyzer)
    (GT : Loc -> list Transition) (n : Z) (ctx : option RuleContext) (σ : Store) :
  agree (getExpectedTokens Look GT n ctx σ) (specExpectedTokens Look GT n ctx σ).
Proof.
  unfold getExpectedTokens, specExpectedTokens; rewrite !bind_get.
  destruct (_ || _) eqn:Hb; [exact I|].
  apply orb_false_iff in Hb as [Hb1 Hb2]; apply Z.ltb_ge in Hb1; apply Z.leb_gt in Hb2.
  destruct (nth_error (states (atn σ)) (Z.to_nat n)) as [s|] eqn:En;
    [| apply nth_error_None in En; lia].
  unfold bind at 1; rewrite (index_ok _ _ _ σ Hb1 En).
  rewrite (nth_error_nth _ _ None En).
  change ((fun s0 : option Loc => _) s σ) with
    (bind (NextTokens Look s None)
       (fun following =>
          if negb (Contains following TokenEpsilon) then ret following
          else
            let expected := removeOne (addSet NewIntervalSet following) TokenEpsilon in
            fe <- match ctx with
                  | None => ret (following, expected)
                  | Some c => expectedLoop Look GT c following expected
                  end ;;
            let '(following, expected) := fe in
            ret (if Contains following TokenEpsilon
                 then AddOne expected TokenEOF else expected)) σ).
  unfold bind at 1 3.
  destruct (NextTokens Look s None σ) as [[f|p] σ'] eqn:E; [|exact I].
  destruct (negb _); [apply agree_refl|].
  apply agree_bind.
  destruct ctx as [c|]; [apply expectedLoop_agrees | apply agree_refl].
Qed.


(** ** Further properties of the code *)

(** *** Membership in the interval-set operations *)

Lemma Contains_AddOne i v t : Contains (AddOne i v) t = Contains i t || (t =? v).
Proof.
  unfold AddOne; destruct (Contains i v) eqn:Hv.
  - destruct (Z.eqb_spec t v) as [->|_]; [rewrite Hv | rewrite orb_false_r]; reflexivity.
  - unfold Contains; simpl; rewrite existsb_app; simpl; rewrite orb_false_r; reflexivity.
Qed.

Lemma Contains_fold_AddOne xs : forall i t,
  Contains (fold_left AddOne xs i) t = Contains i t || existsb (Z.eqb t) xs.
Proof.
  induction xs as [|x xs IH]; intros i t; simpl.
  - rewrite orb_false_r; reflexivity.
  - rewrite IH, Contains_AddOne, orb_assoc; reflexivity.
Qed.

Lemma Contains_addSet i o t : Contains (addSet i o) t = Contains i t || Contains o t.
Proof. apply Contains_fold_AddOne. Qed.

Lemma Contains_removeOne i v t :
  Contains (removeOne i v) t = Contains i t && negb (t =? v).
Proof.
  unfold Contains, removeOne; cbn [intervals].
  induction (intervals i) as [|x xs IH]; [reflexivity|].
  cbn [filter existsb]; destruct (Z.eqb_spec x v) as [->|Hxv]; cbn [negb existsb];
    rewrite IH.
  - destruct (Z.eqb_spec t v); cbn [negb orb];
      rewrite ?andb_false_r, ?andb_true_r; reflexivity.
  - destruct (Z.eqb_spec t x) as [->|]; cbn [orb]; [|reflexivity].
    rewrite (proj2 (Z.eqb_neq x v) Hxv); reflexivity.
Qed.

Lemma Contains_NewIntervalSet t : Contains NewIntervalSet t = false.
Proof. reflexivity. Qed.

(** *** Runs of [getExpectedTokens] that return a set *)

Lemma expectedLoop_Ok Look GT inv par f e σ r σ' :
  expectedLoop Look GT (RC inv par) f e σ = (Ok r, σ') ->
  ((0 <=? inv) && Contains f TokenEpsilon = false /\ r = (f, e) /\ σ' = σ) \/
  ((0 <=? inv) && Contains f TokenEpsilon = true /\
   exists li t fs f1 σ1 p,
     nth_error (states (atn σ)) (Z.to_nat inv) = Some (Some li) /\
     nth_error (GT li) 0 = Some (RuleTransition t fs) /\
     NextTokens Look (Some fs) None σ = (Ok f1, σ1) /\
     par = Some p /\
     expectedLoop Look GT p f1 (removeOne (addSet e f1) TokenEpsilon) σ1 = (Ok r, σ')).
Proof.
  cbn [expectedLoop]; destruct (_ && _) eqn:Hc; intro H.
  2: { left; unfold ret in H; injection H as <- <-; auto. }
  right; split; [reflexivity|].
  unfold index in H; unfold bind, get, ret, throw in H; cbv beta iota zeta in H.
  destruct ((inv <? 0) || (Z.of_nat (length (states (atn σ))) <=? inv));
    cbv beta iota in H; [discriminate|].
  destruct (nth_error (states (atn σ)) (Z.to_nat inv)) as [[li|]|] eqn:En;
    cbv beta iota in H; try discriminate.
  destruct (GT li) as [|[t fs|t] rest] eqn:EG; cbn -[NextTokens expectedLoop] in H;
    unfold ret, throw in H; cbv beta iota zeta in H; try discriminate.
  destruct (NextTokens Look (Some fs) None σ) as [[f1|q] σ1] eqn:EN; [|discriminate].
  destruct par as [p|]; [|discriminate].
  exists li, t, fs, f1, σ1, p; repeat split; auto; rewrite EG; reflexivity.
Qed.

Lemma getExpectedTokens_Ok Look GT n ctx σ E σ' :
  getExpectedTokens Look GT n ctx σ = (Ok E, σ') ->
  exists l F σ1,
    0 <= n < Z.of_nat (length (states (atn σ))) /\
    nth_error (states (atn σ)) (Z.to_nat n) = Some (Some l) /\
    NextTokensNoContext Look (Some l) σ = (Ok F, σ1) /\
    ((Contains F TokenEpsilon = false /\ E = F /\ σ' = σ1) \/
     (Contains F TokenEpsilon = true /\
      exists f' e',
        match ctx with
        | None => ret (F, removeOne (addSet NewIntervalSet F) TokenEpsilon)
        | Some c => expectedLoop Look GT c F (removeOne (addSet NewIntervalSet F) TokenEpsilon)
        end σ1 = (Ok (f', e'), σ') /\
        E = if Contains f' TokenEpsilon then AddOne e' TokenEOF else e')).
Proof.
  intro H; unfold getExpectedTokens in H; rewrite bind_get in H.
  destruct (_ || _) eqn:Hb; [discriminate|].
  apply orb_false_iff in Hb as [Hb1 Hb2]; apply Z.ltb_ge in Hb1; apply Z.leb_gt in Hb2.
  destruct (nth_error (states (atn σ)) (Z.to_nat n)) as [s|] eqn:En;
    [| apply nth_error_None in En; lia].
  pose proof (index_ok _ _ _ σ Hb1 En) as Ei.
  unfold bind at 1 in H; rewrite Ei in H; cbv beta iota in H.
  destruct s as [l|]; [|discriminate].
  unfold bind at 1 in H; cbn [NextTokens] in H.
  destruct (NextTokensNoContext Look (Some l) σ) as [[F|p] σ1] eqn:EN; [|discriminate].
  exists l, F, σ1; split; [lia|]; split; [first [reflexivity | exact En]|];
    split; [first [reflexivity | exact EN]|].
  destruct (Contains F TokenEpsilon) eqn:HF; cbn [negb] in H.
  - right; split; [reflexivity|].
    unfold bind in H.
    destruct (match ctx with
              | None => ret (F, removeOne (addSet NewIntervalSet F) TokenEpsilon)
              | Some c => expectedLoop Look GT c F (removeOne (addSet NewIntervalSet F) TokenEpsilon)
              end σ1) as [[[f' e']|p] σ2] eqn:EL; [|discriminate].
    exists f', e'; unfold ret in H; injection H as <- <-; auto.
  - left; unfold ret in H; injection H as <- <-; auto.
Qed.

(** The loop only adds tokens to [expected] and never adds epsilon. *)
Lemma expectedLoop_acc Look GT :
  forall c f e σ f' e' σ',
  expectedLoop Look GT c f e σ = (Ok (f', e'), σ') ->
  Contains e TokenEpsilon = false ->
  Contains e' TokenEpsilon = false /\ (forall t, Contains e t = true -> Contains e' t = true).
Proof.
  fix IH 1; intros [inv par] f e σ f' e' σ' H He.
  apply expectedLoop_Ok in H as [[_ [Hr _]] | [_ (li & t & fs & f1 & σ1 & p & _ & _ & _ & Hp & Hl)]].
  - injection Hr as <- <-; auto.
  - destruct par as [p0|]; [|discriminate]; injection Hp as <-.
    destruct (IH p0 f1 _ σ1 f' e' σ' Hl) as [H1 H2].
    { rewrite Contains_removeOne, Z.eqb_refl, andb_false_r; reflexivity. }
    split; [exact H1|]; intros t0 Ht; apply H2.
    rewrite Contains_removeOne, Contains_addSet, Ht; cbn [orb andb].
    destruct (Z.eqb_spec t0 TokenEpsilon) as [->|]; [congruence | reflexivity].
Qed.

Lemma Contains_In b xs t : Contains (mkIntervalSet xs b) t = true <-> In t xs.
Proof.
  unfold Contains; cbn [intervals]; rewrite existsb_exists; split.
  - intros (x & Hx & E); apply Z.eqb_eq in E; subst; exact Hx.
  - intro H; exists t; split; [exact H | apply Z.eqb_refl].
Qed.

Lemma frame_cacheSound Look σ σ' : frame Look σ σ' -> cacheSound Look σ -> cacheSound Look σ'.
Proof.
  intros [Hc _] Hs l c H; destruct (Hc l) as [E|[_ E]]; rewrite E in H;
    [apply Hs; exact H | injection H as <-; reflexivity].
Qed.

Lemma frame_keeps_cached Look σ σ' l c :
  frame Look σ σ' -> nextTokenWithinRule (heap σ) l = Some c ->
  nextTokenWithinRule (heap σ') l = Some c.
Proof. intros [Hc _] H; destruct (Hc l) as [E|[E _]]; congruence. Qed.

(** Under a sound cache, the memoised call answers the analyzer's
    context-free set, read-only, and stores it on the state. *)
Lemma NoContext_sound Look l σ :
  cacheSound Look σ ->
  fst (NextTokensNoContext Look (Some l) σ) = Ok (mkIntervalSet (Look l None) true) /\
  nextTokenWithinRule (heap (snd (NextTokensNoContext Look (Some l) σ))) l
    = Some (mkIntervalSet (Look l None) true).
Proof.
  intro Hs; destruct (nextTokenWithinRule (heap σ) l) as [c|] eqn:E.
  - rewrite (NoContext_cached _ _ _ _ E); rewrite (Hs _ _ E) in E |- *; auto.
  - rewrite (NoContext_fresh _ _ _ E); split; [reflexivity|].
    unfold SetNextTokenWithinRule, upd; cbn [snd heap set_heap nextTokenWithinRule];
      rewrite Nat.eqb_refl; reflexivity.
Qed.

Lemma NoContext_stores Look l σ F σ1 :
  NextTokensNoContext Look (Some l) σ = (Ok F, σ1) -> nextTokenWithinRule (heap σ1) l = Some F.
Proof.
  destruct (nextTokenWithinRule (heap σ) l) as [c|] eqn:E.
  - rewrite (NoContext_cached _ _ _ _ E); intro H; injection H as <- <-; exact E.
  - rewrite (NoContext_fresh _ _ _ E); intro H; injection H as <- <-.
    unfold SetNextTokenWithinRule, upd; cbn [heap set_heap nextTokenWithinRule];
      rewrite Nat.eqb_refl; reflexivity.
Qed.

(** [getExpectedTokens] on an in-range, non-nil state: the memoised
    next-token call, then the rest of the body. *)
Lemma getExpectedTokens_at Look GT n ctx σ l :
  0 <= n < Z.of_nat (length (states (atn σ))) ->
  nth_error (states (atn σ)) (Z.to_nat n) = Some (Some l) ->
  getExpectedTokens Look GT n ctx σ =
  bind (NextTokensNoContext Look (Some l))
    (fun following =>
       if negb (Contains following TokenEpsilon) then ret following
       else
         let expected := removeOne (addSet NewIntervalSet following) TokenEpsilon in
         fe <- match ctx with
               | None => ret (following, expected)
               | Some c => expectedLoop Look GT c following expected
               end ;;
         let '(following, expected) := fe in
         ret (if Contains following TokenEpsilon
              then AddOne expected TokenEOF else expected)) σ.
Proof.
  intros Hn Hl; unfold getExpectedTokens; rewrite bind_get.
  replace ((n <? 0) || (Z.of_nat (length (states (atn σ))) <=? n)) with false
    by (symmetry; apply orb_false_iff; split; [apply Z.ltb_ge | apply Z.leb_gt]; lia).
  unfold bind at 1; rewrite (index_ok _ _ _ σ (proj1 Hn) Hl); reflexivity.
Qed.

Lemma bind_Ok {A B} (m : M A) (f : A -> M B) σ a σ1 :
  m σ = (Ok a, σ1) -> bind m f σ = f a σ1.
Proof. intro H; unfold bind; rewrite H; reflexivity. Qed.

Lemma readOnly_AddOne i v : readOnly (AddOne i v) = readOnly i.
Proof. unfold AddOne; destruct (Contains i v); reflexivity. Qed.

Lemma readOnly_fold_AddOne xs : forall i, readOnly (fold_left AddOne xs i) = readOnly i.
Proof. induction xs as [|x xs IH]; intro i; simpl; [|rewrite IH, readOnly_AddOne]; reflexivity. Qed.

(** *** What [getExpectedTokens] returns *)

(** X1: whenever [getExpectedTokens] returns a set, the epsilon marker is not
    in it: either the local set has no epsilon and is returned as it is, or
    epsilon is removed after every union and only EOF is added at the end. *)
Theorem getExpectedTokens_no_epsilon (Look : LookAnalyzer) (GT : Loc -> list Transition)
    (n : Z) (ctx : option RuleContext) (σ : Store) (E : IntervalSet)
    (HE : fst (getExpectedTokens Look GT n ctx σ) = Ok E) :
  Contains E TokenEpsilon = false.
Proof.
  destruct (getExpectedTokens Look GT n ctx σ) as [r σ'] eqn:EG; cbn [fst] in HE; subst r.
  apply getExpectedTokens_Ok in EG
    as (l & F & σ1 & _ & _ & _ & [[HF [-> _]] | [HF (f' & e' & Hl & ->)]]); [exact HF|].
  assert (H0 : Contains (removeOne (addSet NewIntervalSet F) TokenEpsilon) TokenEpsilon = false)
    by (rewrite Contains_removeOne, Z.eqb_refl, andb_false_r; reflexivity).
  assert (He' : Contains e' TokenEpsilon = false).
  { destruct ctx as [c|].
    - exact (proj1 (expectedLoop_acc _ _ _ _ _ _ _ _ _ Hl H0)).
    - unfold ret in Hl; injection Hl as _ <- _; exact H0. }
  destruct (Contains f' TokenEpsilon); [rewrite Contains_AddOne, He'; reflexivity | exact He'].
Qed.

Lemma getExpectedTokens_no_epsilon_witness :
  fst (getExpectedTokens TestGraph.look TestGraph.trans 0 (Some TestGraph.ctxRooted)
         TestGraph.store0) = Ok (mkIntervalSet [TestGraph.T; 7] false) /\
  Contains (mkIntervalSet [TestGraph.T; 7] false) TokenEpsilon = false.
Proof.
  split; [vm_compute; reflexivity|].
  apply (getExpectedTokens_no_epsilon TestGraph.look TestGraph.trans 0
           (Some TestGraph.ctxRooted) TestGraph.store0).
  vm_compute; reflexivity.
Defined.

(** X2: when the state's memoised local set has no epsilon,
    [getExpectedTokens] returns that very set, the read-only object stored on
    the state, whatever the context (the context is not even inspected), and
    the store is the one the memoised call left. *)
Theorem getExpectedTokens_local_set_shared (Look : LookAnalyzer)
    (GT : Loc -> list Transition) (n : Z) (ctx : option RuleContext) (σ : Store)
    (l : Loc) (F : IntervalSet) (σ1 : Store)
    (Hn : 0 <= n < Z.of_nat (length (states (atn σ))))
    (Hl : nth_error (states (atn σ)) (Z.to_nat n) = Some (Some l))
    (HN : NextTokensNoContext Look (Some l) σ = (Ok F, σ1))
    (HF : Contains F TokenEpsilon = false) :
  getExpectedTokens Look GT n ctx σ = (Ok F, σ1) /\ nextTokenWithinRule (heap σ1) l = Some F.
Proof.
  split; [|exact (NoContext_stores _ _ _ _ _ HN)].
  rewrite (getExpectedTokens_at _ _ _ _ _ _ Hn Hl), (bind_Ok _ _ _ _ _ HN), HF; reflexivity.
Qed.

Lemma getExpectedTokens_local_set_shared_witness :
  let σ1 := snd (NextTokensNoContext TestGraph.look (Some 2%nat) TestGraph.store0) in
  getExpectedTokens TestGraph.look TestGraph.trans 2 (Some TestGraph.ctxNoParent)
    TestGraph.store0 = (Ok (mkIntervalSet [7] true), σ1) /\
  nextTokenWithinRule (heap σ1) 2%nat = Some (mkIntervalSet [7] true).
Proof.
  intro σ1.
  apply (getExpectedTokens_local_set_shared TestGraph.look TestGraph.trans 2
           (Some TestGraph.ctxNoParent) TestGraph.store0 2%nat (mkIntervalSet [7] true) σ1);
    [simpl; lia | reflexivity | reflexivity | reflexivity].
Defined.

(** X3: for a root-only context (nil, or a link whose invoking state is
    negative, such as the root marker) and a state whose local set [F]
    contains epsilon, [getExpectedTokens] returns a fresh, writable set
    holding exactly the tokens of [F] other than epsilon, plus EOF. *)
Theorem getExpectedTokens_root_only (Look : LookAnalyzer) (GT : Loc -> list Transition)
    (n : Z) (ctx : option RuleContext) (σ : Store) (l : Loc) (F : IntervalSet) (σ1 : Store)
    (Hr : rootOnly ctx = true)
    (Hn : 0 <= n < Z.of_nat (length (states (atn σ))))
    (Hl : nth_error (states (atn σ)) (Z.to_nat n) = Some (Some l))
    (HN : NextTokensNoContext Look (Some l) σ = (Ok F, σ1))
    (HF : Contains F TokenEpsilon = true) :
  exists E, getExpectedTokens Look GT n ctx σ = (Ok E, σ1) /\ readOnly E = false /\
    forall t, Contains E t = (Contains F t && negb (t =? TokenEpsilon)) || (t =? TokenEOF).
Proof.
  rewrite (getExpectedTokens_at _ _ _ _ _ _ Hn Hl), (bind_Ok _ _ _ _ _ HN), HF; cbn [negb].
  set (e0 := removeOne (addSet NewIntervalSet F) TokenEpsilon).
  assert (Hloop : match ctx with
                  | None => ret (F, e0)
                  | Some c => expectedLoop Look GT c F e0
                  end σ1 = (Ok (F, e0), σ1)).
  { destruct ctx as [[inv par]|]; [|reflexivity].
    cbn [rootOnly GetInvokingState] in Hr; apply Z.ltb_lt in Hr; cbn [expectedLoop].
    replace (0 <=? inv) with false by (symmetry; apply Z.leb_gt; lia); reflexivity. }
  cbv zeta; rewrite (bind_Ok _ _ _ _ _ Hloop); cbv beta iota; unfold ret; rewrite HF.
  eexists; split; [reflexivity|]; split.
  - rewrite readOnly_AddOne; unfold e0, removeOne, addSet; cbn [readOnly].
    rewrite readOnly_fold_AddOne; reflexivity.
  - intro t; rewrite Contains_AddOne; unfold e0;
      rewrite Contains_removeOne, Contains_addSet, Contains_NewIntervalSet; reflexivity.
Qed.

Lemma getExpectedTokens_root_only_witness :
  exists E, getExpectedTokens TestGraph.look TestGraph.trans 3 (Some ParserRuleContextEmpty)
              TestGraph.store0
            = (Ok E, snd (NextTokensNoContext TestGraph.look (Some 3%nat) TestGraph.store0)) /\
    readOnly E = false /\
    forall t, Contains E t = (Contains (mkIntervalSet [TokenEpsilon] true) t
                              && negb (t =? TokenEpsilon)) || (t =? TokenEOF).
Proof.
  apply (getExpectedTokens_root_only TestGraph.look TestGraph.trans 3
           (Some ParserRuleContextEmpty) TestGraph.store0 3%nat (mkIntervalSet [TokenEpsilon] true));
    [reflexivity | simpl; lia | reflexivity | reflexivity | reflexivity].
Defined.

(** X4: under a sound memo cache, when the state's local set contains
    epsilon and the first context link has a valid invoking state whose
    first transition is a rule transition, any set [getExpectedTokens]
    returns contains every non-epsilon token of the local set and of the
    follow state's local set. *)
Theorem getExpectedTokens_covers_local_and_follow (Look : LookAnalyzer)
    (GT : Loc -> list Transition) (n inv : Z) (par : option RuleContext) (σ : Store)
    (l li t fs : Loc) (E : IntervalSet) (σ' : Store)
    (Hs : cacheSound Look σ)
    (Hl : nth_error (states (atn σ)) (Z.to_nat n) = Some (Some l))
    (Heps : In TokenEpsilon (Look l None))
    (Hinv : 0 <= inv)
    (Hli : nth_error (states (atn σ)) (Z.to_nat inv) = Some (Some li))
    (Hrt : nth_error (GT li) 0 = Some (RuleTransition t fs))
    (HE : getExpectedTokens Look GT n (Some (RC inv par)) σ = (Ok E, σ')) :
  forall tok, tok <> TokenEpsilon -> In tok (Look l None) \/ In tok (Look fs None) ->
  Contains E tok = true.
Proof.
  intros tok Htok Hin.
  apply getExpectedTokens_Ok in HE as (l' & F & σ1 & _ & Hl' & HN & HE).
  rewrite Hl in Hl'; injection Hl' as <-.
  pose proof (preserves_NoContext Look (Some l) σ) as Hf; rewrite HN in Hf; cbn [snd] in Hf.
  pose proof (graph_NextTokens Look (Some l) None σ) as Hg; cbn [NextTokens] in Hg;
    rewrite HN in Hg; cbn [snd] in Hg; unfold sameGraph in Hg.
  destruct (NoContext_sound Look l σ Hs) as [HF _]; rewrite HN in HF; cbn [fst] in HF;
    injection HF as ->.
  assert (HFe : Contains (mkIntervalSet (Look l None) true) TokenEpsilon = true)
    by (apply Contains_In; exact Heps).
  destruct HE as [[HF' _] | [_ (f' & e' & Hloop & ->)]]; [congruence|].
  apply expectedLoop_Ok in Hloop
    as [[Hc _] | [_ (li' & t' & fs' & f1 & σ2 & p & Hli' & Hrt' & HN1 & _ & Hl2)]].
  { rewrite (proj2 (Z.leb_le _ _) Hinv), HFe in Hc; discriminate. }
  rewrite Hg, Hli in Hli'; injection Hli' as <-.
  rewrite Hrt in Hrt'; injection Hrt' as <- <-.
  cbn [NextTokens] in HN1.
  destruct (NoContext_sound Look fs σ1 (frame_cacheSound _ _ _ Hf Hs)) as [Hf1 _];
    rewrite HN1 in Hf1; cbn [fst] in Hf1; injection Hf1 as ->.
  assert (He1 : Contains (removeOne (addSet (removeOne (addSet NewIntervalSet
                  (mkIntervalSet (Look l None) true)) TokenEpsilon)
                  (mkIntervalSet (Look fs None) true)) TokenEpsilon) TokenEpsilon = false)
    by (rewrite Contains_removeOne, Z.eqb_refl, andb_false_r; reflexivity).
  destruct (expectedLoop_acc _ _ _ _ _ _ _ _ _ Hl2 He1) as [_ Hsub].
  assert (Ht : Contains e' tok = true).
  { apply Hsub.
    rewrite Contains_removeOne, Contains_addSet, Contains_removeOne, Contains_addSet,
      Contains_NewIntervalSet,
      (proj2 (Z.eqb_neq _ _) Htok); cbn [orb negb].
    destruct Hin as [H|H]; apply (proj2 (Contains_In true _ _)) in H; rewrite H;
      rewrite ?orb_true_r; reflexivity. }
  destruct (Contains f' TokenEpsilon); [rewrite Contains_AddOne, Ht; reflexivity | exact Ht].
Qed.

Lemma getExpectedTokens_covers_local_and_follow_witness :
  Contains (mkIntervalSet [7] false) 7 = true.
Proof.
  apply (getExpectedTokens_covers_local_and_follow TestGraph.look TestGraph.trans 3 1
           (Some ParserRuleContextEmpty) TestGraph.store0 3%nat 1%nat 3%nat 2%nat
           (mkIntervalSet [7] false)
           (snd (getExpectedTokens TestGraph.look TestGraph.trans 3
                   (Some TestGraph.ctxRooted) TestGraph.store0))).
  - intros l c H; discriminate H.
  - reflexivity.
  - simpl; auto.
  - lia.
  - reflexivity.
  - reflexivity.
  - reflexivity.
  - discriminate.
  - right; simpl; auto.
Defined.

(** *** The memo cache *)

(** X5: the memo cache stays sound: if every stored next-token set is the
    analyzer's context-free result marked read-only, this still holds after
    any sequence of operations, and [NextTokensNoContext] then answers
    exactly that read-only set for every state. *)
Theorem cache_sound_invariant (Look : LookAnalyzer) (GT : Loc -> list Transition)
    (σ : Store) (Hs : cacheSound Look σ) (os : list Op) :
  cacheSound Look (runOps Look GT os σ) /\
  forall l, fst (NextTokensNoContext Look (Some l) (runOps Look GT os σ))
            = Ok (mkIntervalSet (Look l None) true).
Proof.
  assert (Hs' : cacheSound Look (runOps Look GT os σ))
    by exact (frame_cacheSound _ _ _ (frame_runOps Look GT os σ) Hs).
  split; [exact Hs'|]; intro l; exact (proj1 (NoContext_sound Look l _ Hs')).
Qed.

Lemma cache_sound_invariant_witness :
  cacheSound TestGraph.look
    (runOps TestGraph.look TestGraph.trans
       [OpQuery (QGetExpectedTokens 0 (Some TestGraph.ctxRooted)); OpAddState (Some 4%nat);
        OpRemoveState (Some 1%nat)] TestGraph.store0) /\
  forall l, fst (NextTokensNoContext TestGraph.look (Some l)
                   (runOps TestGraph.look TestGraph.trans
                      [OpQuery (QGetExpectedTokens 0 (Some TestGraph.ctxRooted));
                       OpAddState (Some 4%nat); OpRemoveState (Some 1%nat)] TestGraph.store0))
            = Ok (mkIntervalSet (TestGraph.look l None) true).
Proof.
  apply cache_sound_invariant; intros l c H; discriminate H.
Defined.

Lemma NoContext_Ok Look l σ : exists F σ1, NextTokensNoContext Look (Some l) σ = (Ok F, σ1).
Proof.
  destruct (nextTokenWithinRule (heap σ) l) as [c|] eqn:E;
    [rewrite (NoContext_cached _ _ _ _ E) | rewrite (NoContext_fresh _ _ _ E)]; eauto.
Qed.

(** X6: a call of [getExpectedTokens] on an in-range, non-nil state leaves
    that state's local next-token set memoised, whatever the outcome of the
    rest of the call: a later [NextTokensNoContext] on the state answers
    from the cache and changes nothing. *)
Theorem getExpectedTokens_memoises_state (Look : LookAnalyzer) (GT : Loc -> list Transition)
    (n : Z) (ctx : option RuleContext) (σ : Store) (l : Loc)
    (Hn : 0 <= n < Z.of_nat (length (states (atn σ))))
    (Hl : nth_error (states (atn σ)) (Z.to_nat n) = Some (Some l)) :
  exists c,
    nextTokenWithinRule (heap (snd (getExpectedTokens Look GT n ctx σ))) l = Some c /\
    NextTokensNoContext Look (Some l) (snd (getExpectedTokens Look GT n ctx σ))
      = (Ok c, snd (getExpectedTokens Look GT n ctx σ)).
Proof.
  destruct (NoContext_Ok Look l σ) as (F & σ1 & HN).
  rewrite (getExpectedTokens_at _ _ _ _ _ _ Hn Hl), (bind_Ok _ _ _ _ _ HN); cbv beta.
  lazymatch goal with |- context [snd (?m σ1)] => assert (Hm : preserves Look m) end.
  { destruct (negb _); [apply preserves_ret|].
    apply preserves_bind;
      [destruct ctx; [apply preserves_expectedLoop | apply preserves_ret]
      | intros [f' e']; apply preserves_ret]. }
  exists F.
  pose proof (frame_keeps_cached _ _ _ _ _ (Hm σ1) (NoContext_stores _ _ _ _ _ HN)) as Hc.
  split; [exact Hc | exact (NoContext_cached _ _ _ _ Hc)].
Qed.

Lemma getExpectedTokens_memoises_state_witness :
  exists c,
    nextTokenWithinRule (heap (snd (getExpectedTokens TestGraph.look TestGraph.trans 3
       (Some TestGraph.ctxNoParent) TestGraph.store0))) 3%nat = Some c /\
    NextTokensNoContext TestGraph.look (Some 3%nat)
      (snd (getExpectedTokens TestGraph.look TestGraph.trans 3
              (Some TestGraph.ctxNoParent) TestGraph.store0))
      = (Ok c, snd (getExpectedTokens TestGraph.look TestGraph.trans 3
                      (Some TestGraph.ctxNoParent) TestGraph.store0)).
Proof.
  apply (getExpectedTokens_memoises_state TestGraph.look TestGraph.trans 3
           (Some TestGraph.ctxNoParent) TestGraph.store0 3%nat); [simpl; lia | reflexivity].
Defined.

(** *** Removing states *)

Lemma removeState_out_of_range (l : Loc) (σ : Store) :
  ~ (0 <= stateNumber (heap σ) l < Z.of_nat (length (states (atn σ)))) ->
  removeState (Some l) σ = (Panic IndexOutOfRange, σ).
Proof.
  intro Hk; unfold removeState, bind, get, index.
  replace ((stateNumber (heap σ) l <? 0) ||
           (Z.of_nat (length (states (atn σ))) <=? stateNumber (heap σ) l)) with true;
    [reflexivity|].
  symmetry; apply orb_true_iff.
  destruct (Z_lt_le_dec (stateNumber (heap σ) l) 0);
    [left; apply Z.ltb_lt; lia | right; apply Z.leb_le; lia].
Qed.

Lemma list_set_idem {A} (xs : list A) k v : list_set (list_set xs k v) k v = list_set xs k v.
Proof. revert k; induction xs as [|x xs IH]; intros [|k]; simpl; rewrite ?IH; reflexivity. Qed.

(** X7: after [removeState] clears the slot of the state numbered [k], a call
    [getExpectedTokens(k, ctx)] passes the range check and fails on the nil
    slot with a nil dereference (not the invalid-state-number panic),
    leaving the store as it was. *)
Theorem getExpectedTokens_after_removeState (Look : LookAnalyzer)
    (GT : Loc -> list Transition) (l : Loc) (ctx : option RuleContext) (σ : Store)
    (Hk : 0 <= stateNumber (heap σ) l < Z.of_nat (length (states (atn σ)))) :
  getExpectedTokens Look GT (stateNumber (heap σ) l) ctx (snd (removeState (Some l) σ))
    = (Panic NilDereference, snd (removeState (Some l) σ)).
Proof.
  rewrite (removeState_effect l σ Hk); cbn [snd].
  set (k := stateNumber (heap σ) l) in *.
  set (σ' := set_atn σ (set_states (atn σ) (list_set (states (atn σ)) (Z.to_nat k) None))).
  assert (Hlen : length (states (atn σ')) = length (states (atn σ))) by apply list_set_length.
  assert (Hnth : nth_error (states (atn σ')) (Z.to_nat k) = Some None).
  { cbn [σ' set_atn set_states atn states]; rewrite list_set_nth_error, Nat.eqb_refl;
      [reflexivity | lia]. }
  unfold getExpectedTokens; rewrite bind_get.
  replace ((k <? 0) || (Z.of_nat (length (states (atn σ'))) <=? k)) with false
    by (symmetry; apply orb_false_iff; split; [apply Z.ltb_ge | apply Z.leb_gt]; lia).
  unfold bind at 1; rewrite (index_ok _ _ _ σ' (proj1 Hk) Hnth); reflexivity.
Qed.

Lemma getExpectedTokens_after_removeState_witness :
  getExpectedTokens TestGraph.look TestGraph.trans (stateNumber (heap TestGraph.store0) 2%nat)
    None (snd (removeState (Some 2%nat) TestGraph.store0))
  = (Panic NilDereference, snd (removeState (Some 2%nat) TestGraph.store0)).
Proof.
  apply (getExpectedTokens_after_removeState TestGraph.look TestGraph.trans 2%nat None
           TestGraph.store0); simpl; lia.
Defined.

(** X8: [removeState] is idempotent: removing the same state a second time
    (from the store the first call left, whether it succeeded or panicked)
    has the same outcome and the same final store as removing it once. *)
Theorem removeState_idempotent (s : option Loc) (σ : Store) :
  removeState s (snd (removeState s σ)) = removeState s σ.
Proof.
  destruct s as [l|]; [|reflexivity].
  destruct (Z_le_dec 0 (stateNumber (heap σ) l)) as [H0|H0];
    [destruct (Z_lt_le_dec (stateNumber (heap σ) l) (Z.of_nat (length (states (atn σ)))))
       as [H1|H1]|].
  - assert (Hk : 0 <= stateNumber (heap σ) l < Z.of_nat (length (states (atn σ)))) by lia.
    rewrite (removeState_effect l σ Hk); cbn [snd].
    rewrite (removeState_effect l _);
      cbn [set_atn set_states atn heap states]; rewrite ?list_set_length; [|exact Hk].
    rewrite list_set_idem; reflexivity.
  - rewrite (removeState_out_of_range l σ) by lia; cbn [snd].
    rewrite (removeState_out_of_range l σ) by lia; reflexivity.
  - rewrite (removeState_out_of_range l σ) by lia; cbn [snd].
    rewrite (removeState_out_of_range l σ) by lia; reflexivity.
Qed.

(** X9: [removeState] either succeeds, on a non-nil state whose number is
    in range, or panics and leaves the store exactly as it was: a nil state
    gives a nil dereference, an out-of-range number an index-out-of-range
    panic. *)
Theorem removeState_panics_cleanly (s : option Loc) (σ : Store) :
  match removeState s σ with
  | (Ok _, _) => exists l, s = Some l /\
                   0 <= stateNumber (heap σ) l < Z.of_nat (length (states (atn σ)))
  | (Panic p, σ') =>
      σ' = σ /\
      ((s = None /\ p = NilDereference) \/
       (exists l, s = Some l /\ p = IndexOutOfRange /\
          ~ (0 <= stateNumber (heap σ) l < Z.of_nat (length (states (atn σ))))))
  end.
Proof.
  destruct s as [l|]; [|cbn; auto].
  destruct (Z_le_dec 0 (stateNumber (heap σ) l)) as [H0|H0];
    [destruct (Z_lt_le_dec (stateNumber (heap σ) l) (Z.of_nat (length (states (atn σ)))))
       as [H1|H1]|].
  - assert (Hk : 0 <= stateNumber (heap σ) l < Z.of_nat (length (states (atn σ)))) by lia.
    rewrite (removeState_effect l σ Hk); eauto.
  - rewrite (removeState_out_of_range l σ) by lia; split; [reflexivity|].
    right; exists l; repeat split; lia.
  - rewrite (removeState_out_of_range l σ) by lia; split; [reflexivity|].
    right; exists l; repeat split; lia.
Qed.

(** *** Decision states *)

Lemma getDecisionState_cons (d : Z) (σ : Store) x xs :
  DecisionToState (atn σ) = x :: xs -> getDecisionState d σ = index (x :: xs) d σ.
Proof. intro E; unfold getDecisionState; rewrite bind_get, E; reflexivity. Qed.

(** X10: [defineDecisionState(nil)] appends the nil entry to the decision
    table before it fails on [s.setDecision] with a nil dereference; the
    panic leaves the grown table behind, and [getDecisionState] at the new
    index then returns nil. *)
Theorem defineDecisionState_nil_appends (σ : Store) :
  fst (defineDecisionState None σ) = Panic NilDereference /\
  DecisionToState (atn (snd (defineDecisionState None σ))) = DecisionToState (atn σ) ++ [None] /\
  getDecisionState (Z.of_nat (length (DecisionToState (atn σ)))) (snd (defineDecisionState None σ))
    = (Ok None, snd (defineDecisionState None σ)).
Proof.
  split; [reflexivity|]; split; [reflexivity|].
  set (σ' := snd (defineDecisionState None σ)).
  assert (E : DecisionToState (atn σ') = DecisionToState (atn σ) ++ [None]) by reflexivity.
  destruct (DecisionToState (atn σ) ++ [None]) as [|x xs] eqn:Ed;
    [destruct (DecisionToState (atn σ)); discriminate|].
  rewrite (getDecisionState_cons _ _ x xs) by congruence.
  apply index_ok; [lia|].
  rewrite <- Ed, Nat2Z.id, nth_error_app2, Nat.sub_diag; reflexivity.
Qed.

(** X11: [getDecisionState] on an index outside the decision table returns
    nil while the table is empty, and panics with index out of range, the
    store unchanged, once any decision state has been defined. *)
Theorem getDecisionState_out_of_range (d : Z) (σ : Store)
    (Hd : d < 0 \/ Z.of_nat (length (DecisionToState (atn σ))) <= d) :
  getDecisionState d σ =
    (match DecisionToState (atn σ) with [] => Ok None | _ => Panic IndexOutOfRange end, σ).
Proof.
  unfold getDecisionState; rewrite bind_get.
  destruct (DecisionToState (atn σ)) as [|x xs]; [reflexivity|].
  unfold index.
  replace ((d <? 0) || (Z.of_nat (length (x :: xs)) <=? d)) with true; [reflexivity|].
  symmetry; apply orb_true_iff.
  destruct Hd; [left; apply Z.ltb_lt | right; apply Z.leb_le]; lia.
Qed.

Lemma getDecisionState_out_of_range_witness :
  getDecisionState 1 (snd (defineDecisionState (Some 0%nat) TestGraph.store0)) =
    (Panic IndexOutOfRange, snd (defineDecisionState (Some 0%nat) TestGraph.store0)).
Proof.
  apply (getDecisionState_out_of_range 1 (snd (defineDecisionState (Some 0%nat) TestGraph.store0))).
  right; simpl; lia.
Defined.

(** *** Calls to the lookahead analyzer *)

Lemma logNilCtx_refl σ : logNilCtx σ σ.
Proof. exists []; rewrite app_nil_r; split; [reflexivity | constructor]. Qed.

Lemma logNilCtx_trans σ1 σ2 σ3 : logNilCtx σ1 σ2 -> logNilCtx σ2 σ3 -> logNilCtx σ1 σ3.
Proof.
  intros (c1 & E1 & F1) (c2 & E2 & F2); exists (c1 ++ c2); split.
  - rewrite E2, E1, app_assoc; reflexivity.
  - apply Forall_app; split; assumption.
Qed.

Ltac lognil_step :=
  first [ apply (stable_bind _ logNilCtx_trans)
        | apply (stable_ret _ logNilCtx_refl)
        | apply (stable_throw _ logNilCtx_refl)
        | apply (stable_get _ logNilCtx_refl)
        | apply (stable_index _ logNilCtx_refl) ].

Lemma lognil_NoContext Look s : stable logNilCtx (NextTokensNoContext Look s).
Proof.
  destruct s as [l|]; [|lognil_step]; intro σ.
  destruct (nextTokenWithinRule (heap σ) l) as [c|] eqn:E.
  - rewrite (NoContext_cached _ _ _ _ E); apply logNilCtx_refl.
  - rewrite (NoContext_fresh _ _ _ E); exists [(l, None)]; split; [reflexivity|].
    repeat constructor.
Qed.

Lemma lognil_expectedLoop Look GT : forall c f e, stable logNilCtx (expectedLoop Look GT c f e).
Proof.
  fix IH 1; intros [inv par] f e; cbn [expectedLoop].
  destruct (_ && _); [|lognil_step].
  lognil_step; [lognil_step|]; intro σ.
  lognil_step; [lognil_step|]; intros [li|]; [|lognil_step].
  lognil_step; [lognil_step|]; intros [t fs|t]; [|lognil_step].
  lognil_step; [apply lognil_NoContext|]; intro f'.
  destruct par as [p|]; [apply IH | lognil_step].
Qed.

(** X12: [getExpectedTokens] never hands its context to the analyzer: every
    analyzer run it causes, whatever its outcome, is a context-free one
    (through [NextTokensNoContext]), for the state and for each follow
    state; the context chain is only read for its invoking states. *)
Theorem getExpectedTokens_context_free_lookups (Look : LookAnalyzer)
    (GT : Loc -> list Transition) (n : Z) (ctx : option RuleContext) :
  stable logNilCtx (getExpectedTokens Look GT n ctx).
Proof.
  unfold getExpectedTokens; lognil_step; [lognil_step|]; intro σ.
  destruct (_ || _); [lognil_step|].
  lognil_step; [lognil_step|]; intro s.
  lognil_step; [apply lognil_NoContext|]; intro f.
  destruct (negb _); [lognil_step|].
  lognil_step; [destruct ctx; [apply lognil_expectedLoop | lognil_step]|].
  intros [f' e']; lognil_step.
Qed.

(** *** The ATN's header *)

Lemma sameHeader_refl σ : sameHeader σ σ.
Proof. split; reflexivity. Qed.

Lemma sameHeader_trans σ1 σ2 σ3 : sameHeader σ1 σ2 -> sameHeader σ2 σ3 -> sameHeader σ1 σ3.
Proof. intros [A1 B1] [A2 B2]; split; congruence. Qed.

Lemma runOp_sameHeader Look GT o σ :
  sameATN o = true -> sameHeader σ (snd (runOp Look GT o σ)).
Proof.
  destruct o as [q| | s | s | s]; intro Ho; try discriminate Ho.
  - pose proof (graph_runQuery Look GT q σ) as H; unfold sameGraph in H; cbn [runOp].
    split; rewrite H; reflexivity.
  - destruct s; split; reflexivity.
  - destruct s as [l|]; [|split; reflexivity]; cbn [runOp].
    destruct (Z_le_dec 0 (stateNumber (heap σ) l)) as [H0|H0];
      [destruct (Z_lt_le_dec (stateNumber (heap σ) l) (Z.of_nat (length (states (atn σ)))))
         as [H1|H1]|].
    + rewrite (removeState_effect l σ) by lia; split; reflexivity.
    + rewrite (removeState_out_of_range l σ) by lia; split; reflexivity.
    + rewrite (removeState_out_of_range l σ) by lia; split; reflexivity.
  - destruct s; split; reflexivity.
Qed.

(** X13: the maximum token type and the grammar type of an ATN are fixed at
    construction: after [NewATN(grammarType, maxTokenType)], any sequence of
    operations on that ATN leaves [GetMaxTokenType] and the grammar type as
    given. *)
Theorem GetMaxTokenType_fixed (Look : LookAnalyzer) (GT : Loc -> list Transition)
    (gt mtt : Z) (os : list Op) (σ : Store) (Hos : forallb sameATN os = true) :
  GetMaxTokenType (atn (runOps Look GT (OpNewATN gt mtt :: os) σ)) = mtt /\
  grammarType (atn (runOps Look GT (OpNewATN gt mtt :: os) σ)) = gt.
Proof.
  cbn [runOps]; set (σ0 := snd (runOp Look GT (OpNewATN gt mtt) σ)).
  assert (H0 : maxTokenType (atn σ0) = mtt /\ grammarType (atn σ0) = gt) by (split; reflexivity).
  clearbody σ0; revert σ0 H0; induction os as [|o os IH]; intros σ0 H0; [exact H0|].
  cbn [forallb] in Hos; apply andb_true_iff in Hos as [Ho Hos].
  cbn [runOps]; apply (IH Hos).
  destruct (runOp_sameHeader Look GT o σ0 Ho) as [A B]; rewrite A, B; exact H0.
Qed.

Lemma GetMaxTokenType_fixed_witness :
  GetMaxTokenType (atn (runOps TestGraph.look TestGraph.trans
     [OpNewATN 1 42; OpAddState (Some 0%nat); OpDefineDecisionState (Some 0%nat);
      OpRemoveState (Some 0%nat); OpQuery (QGetExpectedTokens 0 None)] TestGraph.store0)) = 42 /\
  grammarType (atn (runOps TestGraph.look TestGraph.trans
     [OpNewATN 1 42; OpAddState (Some 0%nat); OpDefineDecisionState (Some 0%nat);
      OpRemoveState (Some 0%nat); OpQuery (QGetExpectedTokens 0 None)] TestGraph.store0)) = 1.
Proof.
  apply (GetMaxTokenType_fixed TestGraph.look TestGraph.trans 1 42
    [OpAddState (Some 0%nat); OpDefineDecisionState (Some 0%nat);
     OpRemoveState (Some 0%nat); OpQuery (QGetExpectedTokens 0 None)] TestGraph.store0).
  reflexivity.
Defined.

(** *** Adding states *)

(** X14: a state added by [addState] is found again by the number it was
    given: under a sound memo cache, if the state's context-free next-token
    set has no epsilon, [getExpectedTokens] at that number returns that set,
    read-only, for any context. *)
Theorem addState_then_getExpectedTokens (Look : LookAnalyzer) (GT : Loc -> list Transition)
    (l : Loc) (ctx : option RuleContext) (σ : Store)
    (Hs : cacheSound Look σ) (Hno : ~ In TokenEpsilon (Look l None)) :
  fst (getExpectedTokens Look GT (stateNumber (heap (snd (addState (Some l) σ))) l) ctx
         (snd (addState (Some l) σ))) = Ok (mkIntervalSet (Look l None) true).
Proof.
  destruct (addState_number l σ) as [Hnum Hlen].
  assert (Hnth : nth_error (states (atn (snd (addState (Some l) σ)))) (length (states (atn σ)))
                 = Some (Some l)).
  { unfold addState, bind, get, put; cbn.
    rewrite nth_error_app2, Nat.sub_diag; [reflexivity | lia]. }
  assert (Hs1 : cacheSound Look (snd (addState (Some l) σ)))
    by exact (frame_cacheSound _ _ _ (preserves_addState Look (Some l) σ) Hs).
  set (σ1 := snd (addState (Some l) σ)) in *.
  destruct (NoContext_Ok Look l σ1) as (F & σ2 & HN).
  destruct (NoContext_sound Look l σ1 Hs1) as [HF _]; rewrite HN in HF; cbn [fst] in HF;
    injection HF as ->.
  rewrite Hnum, (getExpectedTokens_at _ _ _ _ _ l);
    [| rewrite Hlen; lia | rewrite Nat2Z.id; exact Hnth].
  rewrite (bind_Ok _ _ _ _ _ HN).
  replace (Contains (mkIntervalSet (Look l None) true) TokenEpsilon) with false; [reflexivity|].
  symmetry; apply not_true_iff_false; intro H; apply Hno, (proj1 (Contains_In _ _ _) H).
Qed.

Lemma addState_then_getExpectedTokens_witness :
  fst (getExpectedTokens TestGraph.look TestGraph.trans
         (stateNumber (heap (snd (addState (Some 2%nat) (snd (removeState (Some 2%nat)
            TestGraph.store0))))) 2%nat) (Some TestGraph.ctxNoParent)
         (snd (addState (Some 2%nat) (snd (removeState (Some 2%nat) TestGraph.store0)))))
  = Ok (mkIntervalSet (TestGraph.look 2%nat None) true).
Proof.
  apply (addState_then_getExpectedTokens TestGraph.look TestGraph.trans 2%nat
           (Some TestGraph.ctxNoParent) (snd (removeState (Some 2%nat) TestGraph.store0))).
  - intros l c H; discriminate H.
  - simpl; intuition discriminate.
Defined.

(** *** Epsilon propagation along well-formed chains *)

Lemma expectedLoop_step Look GT inv par p f e σ li t fs rest :
  0 <= inv -> Contains f TokenEpsilon = true ->
  nth_error (states (atn σ)) (Z.to_nat inv) = Some (Some li) ->
  GT li = RuleTransition t fs :: rest -> par = Some p ->
  expectedLoop Look GT (RC inv par) f e σ =
  bind (NextTokens Look (Some fs) None)
    (fun f' => expectedLoop Look GT p f' (removeOne (addSet e f') TokenEpsilon)) σ.
Proof.
  intros Hi Hf Hl HG ->; cbn [expectedLoop].
  rewrite (proj2 (Z.leb_le _ _) Hi), Hf; cbn [andb].
  rewrite bind_get; unfold bind at 1; rewrite (index_ok _ _ _ σ Hi Hl); cbv beta iota.
  unfold bind at 1; rewrite (index_ok (GT li) 0 (RuleTransition t fs) σ); [reflexivity | lia | rewrite HG; reflexivity].
Qed.

(** On a well-formed chain and under a sound cache, the loop returns; it
    keeps what [expected] had; if it starts with epsilon in [following], the
    first follow state's tokens end up in [expected], and [following] still
    has epsilon at the end when every follow state's local set has it. *)
Lemma expectedLoop_chain (Look : LookAnalyzer) (GT : Loc -> list Transition) :
  forall c fss f e σ,
  cacheSound Look σ ->
  followChain GT (states (atn σ)) c = Some fss ->
  Contains e TokenEpsilon = false ->
  exists f' e' σ',
    expectedLoop Look GT c f e σ = (Ok (f', e'), σ') /\
    (forall t, Contains e t = true -> Contains e' t = true) /\
    (Contains f TokenEpsilon = true ->
       (forall fs rest, fss = fs :: rest -> forall tok, In tok (Look fs None) ->
          tok <> TokenEpsilon -> Contains e' tok = true) /\
       ((forall fs, In fs fss -> In TokenEpsilon (Look fs None)) ->
          Contains f' TokenEpsilon = true)).
Proof.
  fix IH 1; intros [inv par] fss f e σ Hs Hc He.
  cbn [followChain] in Hc.
  destruct (Z.ltb_spec inv 0) as [Hneg|Hinv].
  - injection Hc as <-; exists f, e, σ; split.
    + cbn [expectedLoop]; replace (0 <=? inv) with false by (symmetry; apply Z.leb_gt; lia);
        reflexivity.
    + split; [auto|]; intro Hf; split; [intros fs rest Hfs; discriminate Hfs | intros _; exact Hf].
  - destruct (nth_error (states (atn σ)) (Z.to_nat inv)) as [[li|]|] eqn:Hl; try discriminate.
    destruct (GT li) as [|[t fs|t] rest] eqn:HG; try discriminate.
    destruct par as [p|]; [|discriminate].
    destruct (followChain GT (states (atn σ)) p) as [fss'|] eqn:Hp; [|discriminate].
    injection Hc as <-.
    destruct (Contains f TokenEpsilon) eqn:Hf.
    2: { exists f, e, σ; split; [cbn [expectedLoop]; rewrite Hf, andb_false_r; reflexivity|].
         split; [auto | discriminate]. }
    rewrite (expectedLoop_step Look GT inv (Some p) p f e σ li t fs rest Hinv Hf Hl HG eq_refl).
    destruct (NoContext_Ok Look fs σ) as (f1 & σ1 & HN).
    pose proof (preserves_NoContext Look (Some fs) σ) as Hfr; rewrite HN in Hfr; cbn [snd] in Hfr.
    pose proof (graph_NextTokens Look (Some fs) None σ) as Hg; cbn [NextTokens] in Hg;
      rewrite HN in Hg; cbn [snd] in Hg; unfold sameGraph in Hg.
    destruct (NoContext_sound Look fs σ Hs) as [Hf1 _]; rewrite HN in Hf1; cbn [fst] in Hf1;
      injection Hf1 as ->.
    cbn [NextTokens]; rewrite (bind_Ok _ _ _ _ _ HN).
    set (f1 := mkIntervalSet (Look fs None) true).
    set (e1 := removeOne (addSet e f1) TokenEpsilon).
    assert (He1 : Contains e1 TokenEpsilon = false)
      by (unfold e1; rewrite Contains_removeOne, Z.eqb_refl, andb_false_r; reflexivity).
    assert (Hsub1 : forall t0, Contains e t0 = true -> Contains e1 t0 = true).
    { intros t0 Ht; unfold e1; rewrite Contains_removeOne, Contains_addSet, Ht; cbn [orb andb].
      destruct (Z.eqb_spec t0 TokenEpsilon) as [->|]; [congruence | reflexivity]. }
    rewrite <- Hg in Hp.
    destruct (IH p fss' f1 e1 σ1 (frame_cacheSound _ _ _ Hfr Hs) Hp He1)
      as (f' & e' & σ' & Hrun & Hsub & Hlast).
    exists f', e', σ'; split; [exact Hrun|]; split; [auto|]; intros _; split.
    + intros fs0 rest0 Hfs tok Hin Htok; injection Hfs as <- _; apply Hsub.
      unfold e1, f1; rewrite Contains_removeOne, Contains_addSet,
        (proj2 (Contains_In _ _ _) Hin), orb_true_r, (proj2 (Z.eqb_neq _ _) Htok); reflexivity.
    + intro Hall.
      assert (Hf1e : Contains f1 TokenEpsilon = true)
        by (apply Contains_In, Hall; left; reflexivity).
      apply (proj2 (Hlast Hf1e)); intros fs0 Hin; apply Hall; right; exact Hin.
Qed.

(** C2: epsilon propagation.  Take a state whose context-free (local-rule)
    next-token set contains epsilon, a sound memo cache, and a context that
    is nil or a chain well formed in the spec's sense, whose links up to the
    root marker have the follow states [fss].  Then [getExpectedTokens]
    returns a set [E]:
    - when the context is non-root with a valid invoking state ([fss] starts
      with the follow state [fs] of the top link), [E] holds every token of
      the enclosing level's set [nextTokens(fs, nil)] other than epsilon;
    - when every computed [following] still contains epsilon, the chain
      is exhausted, and in particular when the context is root-only
      ([fss] empty), [E] holds EOF. *)
Theorem getExpectedTokens_epsilon_propagation (Look : LookAnalyzer)
    (GT : Loc -> list Transition) (n : Z) (ctx : option RuleContext) (σ : Store)
    (l : Loc) (fss : list Loc)
    (Hs : cacheSound Look σ)
    (Hn : 0 <= n < Z.of_nat (length (states (atn σ))))
    (Hl : nth_error (states (atn σ)) (Z.to_nat n) = Some (Some l))
    (Heps : In TokenEpsilon (Look l None))
    (Hc : match ctx with
          | None => fss = []
          | Some c => followChain GT (states (atn σ)) c = Some fss
          end) :
  exists E, fst (getExpectedTokens Look GT n ctx σ) = Ok E /\
    (forall fs rest, fss = fs :: rest ->
       forall tok, In tok (Look fs None) -> tok <> TokenEpsilon -> Contains E tok = true) /\
    ((forall fs, In fs fss -> In TokenEpsilon (Look fs None)) -> Contains E TokenEOF = true).
Proof.
  destruct (NoContext_Ok Look l σ) as (F & σ1 & HN).
  pose proof (preserves_NoContext Look (Some l) σ) as Hfr; rewrite HN in Hfr; cbn [snd] in Hfr.
  pose proof (graph_NextTokens Look (Some l) None σ) as Hg; cbn [NextTokens] in Hg;
    rewrite HN in Hg; cbn [snd] in Hg; unfold sameGraph in Hg.
  destruct (NoContext_sound Look l σ Hs) as [HF _]; rewrite HN in HF; cbn [fst] in HF;
    injection HF as ->.
  assert (HFe : Contains (mkIntervalSet (Look l None) true) TokenEpsilon = true)
    by (apply Contains_In; exact Heps).
  rewrite (getExpectedTokens_at _ _ _ _ _ _ Hn Hl), (bind_Ok _ _ _ _ _ HN), HFe; cbn [negb].
  set (e0 := removeOne (addSet NewIntervalSet (mkIntervalSet (Look l None) true)) TokenEpsilon).
  assert (He0 : Contains e0 TokenEpsilon = false)
    by (unfold e0; rewrite Contains_removeOne, Z.eqb_refl, andb_false_r; reflexivity).
  destruct ctx as [c|].
  - rewrite <- Hg in Hc.
    destruct (expectedLoop_chain Look GT c fss (mkIntervalSet (Look l None) true) e0 σ1 (frame_cacheSound _ _ _ Hfr Hs) Hc He0)
      as (f' & e' & σ' & Hrun & _ & Hlast).
    destruct (Hlast HFe) as [Hfirst Hall].
    cbv zeta; rewrite (bind_Ok _ _ _ _ _ Hrun); cbv beta iota; unfold ret; cbn [fst].
    eexists; split; [reflexivity|]; split.
    + intros fs rest Hfs tok Hin Htok; specialize (Hfirst fs rest Hfs tok Hin Htok).
      destruct (Contains f' TokenEpsilon);
        [rewrite Contains_AddOne, Hfirst; reflexivity | exact Hfirst].
    + intro H; rewrite (Hall H), Contains_AddOne, Z.eqb_refl, orb_true_r; reflexivity.
  - subst fss; cbv zeta; rewrite bind_ret; cbv beta iota; rewrite HFe; unfold ret; cbn [fst].
    eexists; split; [reflexivity|]; split; [intros fs rest Hfs; discriminate Hfs|].
    intros _; rewrite Contains_AddOne, Z.eqb_refl, orb_true_r; reflexivity.
Qed.

Lemma getExpectedTokens_epsilon_propagation_witness :
  exists E, fst (getExpectedTokens TestGraph.look TestGraph.trans 3 (Some TestGraph.ctxRooted)
                   TestGraph.store0) = Ok E /\
    (forall fs rest, [2%nat] = fs :: rest ->
       forall tok, In tok (TestGraph.look fs None) -> tok <> TokenEpsilon ->
       Contains E tok = true) /\
    ((forall fs, In fs [2%nat] -> In TokenEpsilon (TestGraph.look fs None)) ->
       Contains E TokenEOF = true).
Proof.
  apply (getExpectedTokens_epsilon_propagation TestGraph.look TestGraph.trans 3
           (Some TestGraph.ctxRooted) TestGraph.store0 3%nat [2%nat]);
    [intros l c H; discriminate H | simpl; lia | reflexivity | simpl; auto | reflexivity].
Defined.
